(** * OFAC crypto wallet screener: a shallow embedding of [main.py]

    The development follows the source file top to bottom:
    - [PyStr]: the [str] methods the program calls ([strip], [lower],
      [in], [join], [split]);
    - [Xml]: the element tree handed back by [ET.fromstring] and the
      [find] / [findall] / [iter] queries made on it;
    - [Parse]: the body of the [for entry in root.iter("sdnEntry")] loop;
    - [Refresh]: the module globals and [download_and_parse_ofac];
    - [Threads]: interleavings of several refresh attempts running over
      the same globals;
    - [Api]: [verify_api_key] and the [/check] endpoint;
    - [Endpoints]: [/status], [/refresh], the background loop and the
      histories of the running process.

    A Python [str] is modelled as a [string] whose characters are the code
    points U+0000..U+00FF; a [dict] keyed by [str] is a [gmap string]. *)

From Stdlib Require Import Ascii String NArith List Bool.
From stdpp Require Import gmap strings list fin_maps.

Local Open Scope string_scope.
Local Open Scope list_scope.
Local Open Scope stdpp_scope.

(* ===================================================================== *)
(** ** Python string methods                                              *)
(* ===================================================================== *)

Module PyStr.

(** [str.isspace] on one character.  Below U+0100 the whitespace code
    points are TAB..CR, FS..US, SPACE, NEL (U+0085) and NBSP (U+00A0). *)
Definition isspace (c : ascii) : bool :=
  let n := N_of_ascii c in
  ((9 <=? n) && (n <=? 13) || (28 <=? n) && (n <=? 32)
   || (n =? 133) || (n =? 160))%N.

(** Lower-case mapping of one character: A..Z and the Latin-1 capitals
    U+00C0..U+00DE (without the multiplication sign U+00D7) move up by 32. *)
Definition lower_char (c : ascii) : ascii :=
  let n := N_of_ascii c in
  if ((65 <=? n) && (n <=? 90)
      || (192 <=? n) && (n <=? 222) && negb (n =? 215))%N
  then ascii_of_N (n + 32) else c.

(** [s.lower()] *)
Fixpoint lower (s : string) : string :=
  match s with
  | EmptyString => EmptyString
  | String c s' => String (lower_char c) (lower s')
  end.

(** [s.lstrip()] *)
Fixpoint lstrip (s : string) : string :=
  match s with
  | EmptyString => EmptyString
  | String c s' => if isspace c then lstrip s' else s
  end.

(** [s.rstrip()] *)
Fixpoint rstrip (s : string) : string :=
  match s with
  | EmptyString => EmptyString
  | String c s' =>
      match rstrip s' with
      | EmptyString => if isspace c then EmptyString else String c EmptyString
      | t => String c t
      end
  end.

(** [s.strip()] *)
Definition strip (s : string) : string := rstrip (lstrip s).

(** Truth value of a [str]: every string but the empty one is true. *)
Definition truthy (s : string) : bool :=
  match s with EmptyString => false | String _ _ => true end.

(** [a or b] on strings. *)
Definition or_else (a b : string) : string := if truthy a then a else b.

(** [needle in hay]: [needle] occurs somewhere in [hay], compared
    character by character. *)
Fixpoint contains (needle hay : string) : bool :=
  String.prefix needle hay
  || match hay with
     | EmptyString => false
     | String _ hay' => contains needle hay'
     end.

(** [sep.join(parts)] *)
Definition join (sep : string) (parts : list string) : string :=
  String.concat sep parts.

(** The text after the first occurrence of the character [c], if there
    is one: [s.split(c, 1)[1]] when [c in s]. *)
Fixpoint after_first (c : ascii) (s : string) : option string :=
  match s with
  | EmptyString => None
  | String a s' => if Ascii.eqb a c then Some s' else after_first c s'
  end.

(** A string made of whitespace only (the empty string included). *)
Fixpoint all_space (s : string) : bool :=
  match s with
  | EmptyString => true
  | String c s' => isspace c && all_space s'
  end.

End PyStr.

(* ===================================================================== *)
(** ** Element trees                                                      *)
(* ===================================================================== *)

Module Xml.

(** An [xml.etree.ElementTree.Element]: its tag, its [text] attribute
    ([None] when the element has no character data) and its children in
    document order. *)
#[warnings="-register-all"] Inductive Element : Type :=
| Elem (tag : string) (text : option string) (children : list Element).

Definition tag (e : Element) : string :=
  match e with Elem t _ _ => t end.
Definition text (e : Element) : option string :=
  match e with Elem _ x _ => x end.
Definition children (e : Element) : list Element :=
  match e with Elem _ _ cs => cs end.

(** [e.find(name)]: the first direct child whose tag is [name]. *)
Definition find (name : string) (e : Element) : option Element :=
  List.find (fun c => String.eqb (tag c) name) (children e).

(** [e.findall(name)]: the direct children whose tag is [name]. *)
Definition findall (name : string) (e : Element) : list Element :=
  List.filter (fun c => String.eqb (tag c) name) (children e).

(** [e.iter()]: the element itself and all its descendants, in document
    (pre-)order. *)
Fixpoint iter (e : Element) : list Element :=
  match e with
  | Elem _ _ cs =>
      e :: (fix iter_all (l : list Element) : list Element :=
              match l with
              | [] => []
              | c :: l' => iter c ++ iter_all l'
              end) cs
  end.

(** [e.iter(name)] *)
Definition iter_tag (name : string) (e : Element) : list Element :=
  List.filter (fun c => String.eqb (tag c) name) (iter e).

(** Lines 94-96: every tag that contains a closing brace is cut down to
    what follows the first one. *)
Definition strip_ns (t : string) : string :=
  match PyStr.after_first "}" t with
  | Some local => local
  | None => t
  end.

Fixpoint strip_namespaces (e : Element) : Element :=
  match e with
  | Elem t x cs => Elem (strip_ns t) x (List.map strip_namespaces cs)
  end.

(** [elem.text or ""] *)
Definition text_or_empty (e : Element) : string :=
  match text e with
  | Some s => s
  | None => ""
  end.

End Xml.

(* ===================================================================== *)
(** ** The parsing loop (lines 98-133)                                    *)
(* ===================================================================== *)

Module Parse.
Import PyStr Xml.

(** The value stored under an address:
    [{"entity": ..., "currency_type": ...}]. *)
Record MatchRecord := {
  entity : string;
  currency_type : string;
}.

#[global] Instance MatchRecord_eq_dec : EqDecision MatchRecord.
Proof. solve_decision. Defined.

(** The key under which an address is stored and looked up:
    [.strip().lower()]. *)
Definition normalize (address : string) : string := lower (strip address).

(** Lines 105-108: what one name field adds to [name_parts]. *)
Definition name_part (field : option Element) : list string :=
  match field with
  | Some e =>
      match text e with
      | Some t => if truthy t then [strip t] else []
      | None => []
      end
  | None => []
  end.

(** Lines 102-109. *)
Definition entity_name (entry : Element) : string :=
  let name_parts :=
    name_part (find "firstName" entry) ++ name_part (find "lastName" entry) in
  or_else (join " " name_parts) "Unknown Entity".

(** Line 128: the test an identifier has to pass. *)
Definition qualifies (id_type id_number : string) : bool :=
  contains "Digital Currency Address" id_type && truthy (strip id_number).

(** Lines 117-133: one turn of the inner loop. *)
Definition process_id (name : string) (new_data : gmap string MatchRecord)
    (id_elem : Element) : gmap string MatchRecord :=
  match find "idType" id_elem, find "idNumber" id_elem with
  | Some id_type_elem, Some id_number_elem =>
      let id_type := text_or_empty id_type_elem in
      let id_number := text_or_empty id_number_elem in
      if qualifies id_type id_number then
        <[ lower (strip id_number) :=
             {| entity := name; currency_type := strip id_type |} ]> new_data
      else new_data
  | _, _ => new_data
  end.

(** Lines 101-133: one turn of the outer loop. *)
Definition process_entry (new_data : gmap string MatchRecord)
    (entry : Element) : gmap string MatchRecord :=
  let name := entity_name entry in
  match find "idList" entry with
  | None => new_data
  | Some id_list => fold_left (process_id name) (findall "id" id_list) new_data
  end.

(** Lines 98-133: the dictionary built from a tree whose namespaces have
    been stripped. *)
Definition parse_entries (root : Element) : gmap string MatchRecord :=
  fold_left process_entry (iter_tag "sdnEntry" root) ∅.

(** *** The loop seen as extraction followed by building

    The loop does two things at once: it picks the identifiers that
    qualify, and it files each of them under its normalized address.
    [extract] and [build] name the two halves; [parse_entries_build]
    shows that their composition is the loop. *)

(** An extracted identifier: (address as written, entity name, label as
    written). *)
Definition Triple : Type := string * string * string.

Definition id_triple (name : string) (id_elem : Element) : option Triple :=
  match find "idType" id_elem, find "idNumber" id_elem with
  | Some id_type_elem, Some id_number_elem =>
      let id_type := text_or_empty id_type_elem in
      let id_number := text_or_empty id_number_elem in
      if qualifies id_type id_number
      then Some (id_number, name, id_type) else None
  | _, _ => None
  end.

Definition entry_triples (entry : Element) : list Triple :=
  match find "idList" entry with
  | None => []
  | Some id_list =>
      omap (id_triple (entity_name entry)) (findall "id" id_list)
  end.

Definition extract (root : Element) : list Triple :=
  List.concat (List.map entry_triples (iter_tag "sdnEntry" root)).

Definition triple_key (t : Triple) : string := normalize t.1.1.
Definition triple_record (t : Triple) : MatchRecord :=
  {| entity := t.1.2; currency_type := strip t.2 |}.

(** Lines 129-133 applied to one triple. *)
Definition store (new_data : gmap string MatchRecord) (t : Triple)
    : gmap string MatchRecord :=
  <[ triple_key t := triple_record t ]> new_data.

Definition build (triples : list Triple) : gmap string MatchRecord :=
  fold_left store triples ∅.

End Parse.

(* ===================================================================== *)
(** ** The globals and the refresh routine (lines 45-149)                 *)
(* ===================================================================== *)

Module Refresh.
Import PyStr Xml Parse.

(** The four module globals. *)
Record State := {
  sanctioned_data : gmap string MatchRecord;
  last_updated : option string;
  is_loading : bool;
  load_error : option string;
}.

(** Lines 45-48: the globals when the module has just been imported. *)
Definition initial_state : State :=
  {| sanctioned_data := ∅; last_updated := None;
     is_loading := false; load_error := None |}.

(** Exceptions are sorted by the [except] clause that fits them first:
    [requests.RequestException] (connection errors, timeouts and the
    [HTTPError] of [raise_for_status] are subclasses), [ET.ParseError],
    any other subclass of [Exception], and the exceptions outside
    [Exception] (such as [SystemExit]), which no clause fits. *)
Inductive ExnClass :=
| RequestException | ParseError | OtherException | NonException.

(** An exception: its class and its [str()]. *)
Record Exn := { exn_class : ExnClass; exn_text : string }.

Inductive result (A : Type) : Type :=
| Ok (a : A)
| Raise (e : Exn).
Arguments Ok {A} a.
Arguments Raise {A} e.

Definition bind {A B : Type} (r : result A) (k : A -> result B) : result B :=
  match r with
  | Ok a => k a
  | Raise e => Raise e
  end.

Notation "'do' x <- r ; k" := (bind r (fun x => k))
  (at level 10, x name, r at level 100, k at level 200).

(** What [requests.get] hands back, as far as the routine looks at it. *)
Record Response := { status_code : Z; content : string }.

(** The world one refresh attempt runs in: the answers of the library
    calls made inside the [try] block. *)
Record World := {
  requests_get : result Response;          (* line 87 *)
  http_error_text : Response -> string;    (* [str()] of the error of line 88 *)
  fromstring : string -> result Element;   (* line 91 *)
  utc_now : string;                        (* line 136 *)
}.

(** Line 88, [response.raise_for_status()]: a status from 400 to 599
    raises [requests.HTTPError], which is a [RequestException]. *)
Definition raise_for_status (w : World) (r : Response) : result unit :=
  if ((400 <=? status_code r) && (status_code r <? 600))%Z then
    Raise {| exn_class := RequestException; exn_text := http_error_text w r |}
  else Ok tt.

(** Lines 87-136 up to the two assignments: the new dictionary and the
    time stamp, or the exception that left the [try] block. *)
Definition try_body (w : World) : result (gmap string MatchRecord * string) :=
  do response <- requests_get w;
  do _ <- raise_for_status w response;
  do root <- fromstring w (content response);
  let root := strip_namespaces root in
  let new_data := parse_entries root in
  Ok (new_data, utc_now w).

(** How a call ends. *)
Inductive Completion :=
| Returned
| Propagated (e : Exn).

Definition set_loading (b : bool) (st : State) : State :=
  {| sanctioned_data := sanctioned_data st; last_updated := last_updated st;
     is_loading := b; load_error := load_error st |}.

Definition set_error (e : option string) (st : State) : State :=
  {| sanctioned_data := sanctioned_data st; last_updated := last_updated st;
     is_loading := is_loading st; load_error := e |}.

(** Lines 135-136. *)
Definition publish (new_data : gmap string MatchRecord) (now : string)
    (st : State) : State :=
  {| sanctioned_data := new_data; last_updated := Some now;
     is_loading := is_loading st; load_error := load_error st |}.

(** Lines 139-147: the [except] clauses.  The text recorded is the prefix
    of the clause followed by [str(exc)]. *)
Definition handle (e : Exn) (st : State) : State * Completion :=
  match exn_class e with
  | RequestException =>
      (set_error (Some ("Download failed: " +:+ exn_text e)) st, Returned)
  | ParseError =>
      (set_error (Some ("XML parse error: " +:+ exn_text e)) st, Returned)
  | OtherException =>
      (set_error (Some ("Unexpected error: " +:+ exn_text e)) st, Returned)
  | NonException => (st, Propagated e)
  end.

(** Lines 86-147: the [try] statement without its [finally] clause. *)
Definition try_except (w : World) (st : State) : State * Completion :=
  match try_body w with
  | Ok (new_data, now) => (publish new_data now st, Returned)
  | Raise e => handle e st
  end.

(** Lines 71-149. *)
Definition download_and_parse_ofac (w : World) (st : State)
    : State * Completion :=
  if is_loading st then (st, Returned)
  else
    let st := set_loading true st in
    let st := set_error None st in
    let '(st, c) := try_except w st in
    (set_loading false st, c).

(** A series of refresh attempts made one after the other, as the loop of
    [background_refresh_loop] makes them. *)
Definition run_attempts (ws : list World) (st : State) : State :=
  fold_left (fun st w => (download_and_parse_ofac w st).1) ws st.

(** The attempt made in world [w] leaves the [try] block by an
    exception. *)
Definition fails (w : World) : bool :=
  match try_body w with
  | Ok _ => false
  | Raise _ => true
  end.

End Refresh.

(* ===================================================================== *)
(** ** Several refresh attempts over the same globals                     *)
(* ===================================================================== *)

(** The routine runs in the thread started at boot and in the tasks that
    [POST /refresh] adds, so several calls can be under way at once.  The
    file takes no lock: a call reads and writes the globals statement by
    statement, and another thread may run between two statements.  A
    thread is therefore a position in the routine; one step executes the
    statement at that position on the shared globals.  The [try] block
    with its [except] clauses is taken as one step, which leaves every
    access to [is_loading] a step of its own. *)

Module Threads.
Import Refresh.

Inductive Pc :=
| AtCheck                        (* line 78: about to test [is_loading] *)
| AtSetFlag                      (* line 82 *)
| AtClearError                   (* line 83 *)
| AtTry                          (* lines 86-147 *)
| AtFinally (c : Completion)     (* line 149 *)
| Skipped                        (* returned at line 80 *)
| Finished (c : Completion).     (* left the routine after line 149 *)

Record Thread := { pc : Pc; world : World }.

Definition at_pc (p : Pc) (t : Thread) : Thread :=
  {| pc := p; world := world t |}.

(** One statement of thread [t] on the globals [st]; [None] when the
    thread has left the routine. *)
Definition step_thread (t : Thread) (st : State) : option (Thread * State) :=
  match pc t with
  | AtCheck =>
      if is_loading st then Some (at_pc Skipped t, st)
      else Some (at_pc AtSetFlag t, st)
  | AtSetFlag => Some (at_pc AtClearError t, set_loading true st)
  | AtClearError => Some (at_pc AtTry t, set_error None st)
  | AtTry =>
      let '(st', c) := try_except (world t) st in
      Some (at_pc (AtFinally c) t, st')
  | AtFinally c => Some (at_pc (Finished c) t, set_loading false st)
  | Skipped => None
  | Finished _ => None
  end.

Record System := { globals : State; threads : list Thread }.

(** Thread number [i] makes one step. *)
Definition step (i : nat) (sys : System) : option System :=
  match threads sys !! i with
  | None => None
  | Some t =>
      match step_thread t (globals sys) with
      | None => None
      | Some (t', st') =>
          Some {| globals := st'; threads := <[i := t']> (threads sys) |}
      end
  end.

(** A schedule names the thread that moves at each step. *)
Fixpoint run (schedule : list nat) (sys : System) : option System :=
  match schedule with
  | [] => Some sys
  | i :: rest =>
      match step i sys with
      | None => None
      | Some sys' => run rest sys'
      end
  end.

(** The gate let the thread through: it went past the test of line 78. *)
Definition granted (t : Thread) : bool :=
  match pc t with
  | AtCheck | Skipped => false
  | _ => true
  end.

(** The gate turned the thread away. *)
Definition declined (t : Thread) : bool :=
  match pc t with
  | Skipped => true
  | _ => false
  end.

(** The thread is in mid-flight: it has set the flag and not yet reset
    it. *)
Definition in_flight (t : Thread) : bool :=
  match pc t with
  | AtClearError | AtTry | AtFinally _ => true
  | _ => false
  end.

Definition start (w : World) : Thread := {| pc := AtCheck; world := w |}.

(** Single flight: however the threads are scheduled, at no time are two
    of them in mid-flight. *)
Definition single_flight (sys0 : System) : Prop :=
  forall schedule sys,
    run schedule sys0 = Some sys ->
    List.length (List.filter in_flight (threads sys)) <= 1.

(** The process right after start-up, with one thread per attempt about
    to enter the routine. *)
Definition boot (ws : list World) : System :=
  {| globals := initial_state; threads := List.map start ws |}.

End Threads.

(* ===================================================================== *)
(** ** The [/check] endpoint (lines 58-64 and 189-219)                    *)
(* ===================================================================== *)

Module Api.
Import PyStr Parse Refresh.

(** [HTTPException(status_code=..., detail=...)] *)
Record HTTPException := { http_status : Z; detail : string }.

Inductive reply (A : Type) : Type :=
| Success (a : A)
| Failure (e : HTTPException).
Arguments Success {A} a.
Arguments Failure {A} e.

(** Lines 61-64.  [API_KEY] is the value of the environment variable,
    [None] when it is unset. *)
Definition verify_api_key (API_KEY x_api_key : option string) : reply unit :=
  match API_KEY with
  | Some key =>
      if truthy key && negb (bool_decide (x_api_key = Some key)) then
        Failure {| http_status := 401;
                   detail := "Missing or invalid API key. Pass it as the X-Api-Key header." |}
      else Success tt
  | None => Success tt
  end.

(** The dictionary returned by [check_wallet]. *)
Record CheckResponse := {
  address : string;
  is_sanctioned : bool;
  match_ : option MatchRecord;
  list_last_updated : option string;
  total_addresses_in_list : nat;
}.

Definition required_detail : string :=
  "The 'address' query parameter is required.".
(** The dash of this text (U+2014) lies outside the alphabet of the
    model; it stands here as the three bytes of its UTF-8 form, E2 80 94,
    as in the source file. *)
Definition loading_detail : string :=
  "Sanctions list is still loading — please wait ~1 minute and try again.".
Definition not_loaded_detail : string :=
  "Sanctions list has not loaded yet. Please try again shortly.".

(** [not sanctioned_data] *)
Definition dict_empty (d : gmap string MatchRecord) : bool :=
  bool_decide (d = ∅).

(** Lines 189-219. *)
Definition check_wallet (API_KEY : option string) (st : State)
    (address : string) (x_api_key : option string) : reply CheckResponse :=
  match verify_api_key API_KEY x_api_key with
  | Failure e => Failure e
  | Success _ =>
      let address := strip address in
      if negb (truthy address) then
        Failure {| http_status := 400; detail := required_detail |}
      else if dict_empty (sanctioned_data st) then
        Failure {| http_status := 503;
                   detail := if is_loading st then loading_detail
                             else not_loaded_detail |}
      else
        let clean := lower address in
        let hit := sanctioned_data st !! clean in
        Success {| address := address;
                   is_sanctioned := match hit with Some _ => true | None => false end;
                   match_ := hit;
                   list_last_updated := last_updated st;
                   total_addresses_in_list := size (sanctioned_data st) |}
  end.

(** A reply without the echo of the address as typed: the error, or the
    verdict, the match record and the two figures about the list. *)
Definition answer (r : reply CheckResponse)
    : HTTPException + bool * option MatchRecord * option string * nat :=
  match r with
  | Failure e => inl e
  | Success resp =>
      inr (is_sanctioned resp, match_ resp, list_last_updated resp,
           total_addresses_in_list resp)
  end.

End Api.

Import PyStr Xml Parse Refresh Threads Api.

(* ===================================================================== *)
(** ** Sample states and worlds                                           *)
(* ===================================================================== *)

(** A state with one address on the list, used in the examples below. *)
Definition one_entry_state : State :=
  {| sanctioned_data :=
       {[ "abc" := {| entity := "Org";
                      currency_type := "Digital Currency Address - XBT" |} ]};
     last_updated := Some "2024-01-01T00:00:00+00:00";
     is_loading := false;
     load_error := None |}.

(** A small list in the namespace of the published schema: one entry
    with a wallet and a passport. *)
Definition sample_tree : Element :=
  Elem "{http://tempuri.org/sdnList.xsd}sdnList" None
    [Elem "{http://tempuri.org/sdnList.xsd}sdnEntry" None
       [Elem "{http://tempuri.org/sdnList.xsd}firstName" (Some "Jo") [];
        Elem "{http://tempuri.org/sdnList.xsd}lastName" (Some " Doe ") [];
        Elem "{http://tempuri.org/sdnList.xsd}idList" None
          [Elem "{http://tempuri.org/sdnList.xsd}id" None
             [Elem "{http://tempuri.org/sdnList.xsd}idType"
                (Some "Digital Currency Address - XBT") [];
              Elem "{http://tempuri.org/sdnList.xsd}idNumber"
                (Some " 1A2b ") []];
           Elem "{http://tempuri.org/sdnList.xsd}id" None
             [Elem "{http://tempuri.org/sdnList.xsd}idType"
                (Some "Passport") [];
              Elem "{http://tempuri.org/sdnList.xsd}idNumber"
                (Some "X123") []]]]].

(** A world whose download times out. *)
Definition timeout_world : World :=
  {| requests_get :=
       Raise {| exn_class := RequestException; exn_text := "Read timed out." |};
     http_error_text := fun _ => "HTTP error";
     fromstring := fun _ => Ok (Elem "sdnList" None []);
     utc_now := "2024-01-02T00:00:00+00:00" |}.

(** A world whose server answers 404. *)
Definition not_found_world : World :=
  {| requests_get := Ok {| status_code := 404; content := "" |};
     http_error_text :=
       fun _ => "404 Client Error: Not Found for url: https://www.treasury.gov/ofac/downloads/sdn.xml";
     fromstring := fun _ => Ok (Elem "sdnList" None []);
     utc_now := "2024-01-02T00:00:00+00:00" |}.

(** A world whose server sends something that is not XML. *)
Definition garbled_world : World :=
  {| requests_get := Ok {| status_code := 200; content := "<sdnList" |};
     http_error_text := fun _ => "HTTP error";
     fromstring :=
       fun _ => Raise {| exn_class := ParseError;
                         exn_text := "unclosed token: line 1, column 0" |};
     utc_now := "2024-01-02T00:00:00+00:00" |}.

(** A world that serves a well-formed list without any entry. *)
Definition empty_list_world : World :=
  {| requests_get := Ok {| status_code := 200; content := "<sdnList/>" |};
     http_error_text := fun _ => "HTTP error";
     fromstring := fun _ => Ok (Elem "sdnList" None []);
     utc_now := "2024-01-02T00:00:00+00:00" |}.

(** A world that serves the sample list. *)
Definition sample_world : World :=
  {| requests_get := Ok {| status_code := 200; content := "<sdnList>...</sdnList>" |};
     http_error_text := fun _ => "HTTP error";
     fromstring := fun _ => Ok sample_tree;
     utc_now := "2024-01-03T00:00:00+00:00" |}.

(** A world in which the process is told to exit during the download. *)
Definition exit_world : World :=
  {| requests_get := Raise {| exn_class := NonException; exn_text := "SystemExit" |};
     http_error_text := fun _ => "HTTP error";
     fromstring := fun _ => Ok sample_tree;
     utc_now := "2024-01-04T00:00:00+00:00" |}.

(* ===================================================================== *)
(** ** The other endpoints and the background loop                        *)
(* ===================================================================== *)

Module Endpoints.
Import PyStr Parse Refresh Threads Api.

(** Line 51. *)
Definition REFRESH_INTERVAL_HOURS : Z := 24.

(** The dictionary returned by [status]; the keys "status" and
    "last_updated" are [status_text] and [status_last_updated] here. *)
Record StatusResponse := {
  status_text : string;
  total_sanctioned_addresses : nat;
  status_last_updated : option string;
  error : option string;
  auto_refresh_every_hours : Z;
}.

(** Lines 222-232. *)
Definition status (API_KEY : option string) (st : State)
    (x_api_key : option string) : reply StatusResponse :=
  match verify_api_key API_KEY x_api_key with
  | Failure e => Failure e
  | Success _ =>
      Success {| status_text :=
                   if is_loading st then "loading"
                   else if negb (dict_empty (sanctioned_data st)) then "ready"
                   else "not_loaded";
                 total_sanctioned_addresses := size (sanctioned_data st);
                 status_last_updated := last_updated st;
                 error := load_error st;
                 auto_refresh_every_hours := REFRESH_INTERVAL_HOURS |}
  end.

Definition already_refreshing : string :=
  "Already refreshing. Check /status for progress.".
Definition refresh_started : string :=
  "Refresh started. Check /status in 1-2 minutes.".

(** Lines 235-242.  The reply is the text under "message".  The task
    handed to [background_tasks.add_task] is a new thread about to enter
    the routine; [task] is the world it will run in. *)
Definition manual_refresh (API_KEY : option string) (sys : System)
    (task : World) (x_api_key : option string) : reply string * System :=
  match verify_api_key API_KEY x_api_key with
  | Failure e => (Failure e, sys)
  | Success _ =>
      if is_loading (globals sys) then (Success already_refreshing, sys)
      else (Success refresh_started,
            {| globals := globals sys;
               threads := threads sys ++ [start task] |})
  end.

(** Lines 152-157: the first turns of the loop, one world per turn.  The
    loop itself has no exit; it only ends when a call of the routine lets
    an exception through. *)
Fixpoint background_refresh_loop (ws : list World) (st : State)
    : State * Completion :=
  match ws with
  | [] => (st, Returned)
  | w :: rest =>
      match download_and_parse_ofac w st with
      | (st', Returned) => background_refresh_loop rest st'
      | (st', Propagated e) => (st', Propagated e)
      end
  end.

(** What happens in the running process, one event at a time: a thread
    executes its next statement; the background loop calls the routine
    (line 155); a client posts to [/refresh].  The events do not keep the
    loop from calling again before its last call is over, so the histories
    below include all those of the program. *)
Inductive Event :=
| Statement (i : nat)
| LoopTurn (w : World)
| PostRefresh (x_api_key : option string) (task : World).

Definition serve (API_KEY : option string) (ev : Event) (sys : System)
    : option System :=
  match ev with
  | Statement i => step i sys
  | LoopTurn w =>
      Some {| globals := globals sys; threads := threads sys ++ [start w] |}
  | PostRefresh x w => Some (manual_refresh API_KEY sys w x).2
  end.

Fixpoint history (API_KEY : option string) (evs : list Event) (sys : System)
    : option System :=
  match evs with
  | [] => Some sys
  | ev :: rest =>
      match serve API_KEY ev sys with
      | None => None
      | Some sys' => history API_KEY rest sys'
      end
  end.

(** The process when the module has been imported and no thread runs
    yet. *)
Definition process_start : System :=
  {| globals := initial_state; threads := [] |}.

(** The history in which the loop makes its turns without any overlap:
    each call of the routine, made in a thread of its own numbered from
    [k] on, executes its five statements before the next call starts. *)
Fixpoint turns_in_a_row (k : nat) (ws : list World) : list Event :=
  match ws with
  | [] => []
  | w :: rest =>
      LoopTurn w :: replicate 5 (Statement k) ++ turns_in_a_row (S k) rest
  end.

(** The flag is backed: if it is set, some thread is in mid-flight. *)
Definition flag_backed (sys : System) : Prop :=
  is_loading (globals sys) = true ->
  exists j t, threads sys !! j = Some t /\ in_flight t = true.

(** The dictionary comes from the worlds [W]: it is the empty one of
    line 45 or the whole result of an attempt made in one of them, and
    every thread runs in one of them. *)
Definition published_from (W : list World) (sys : System) : Prop :=
  (sanctioned_data (globals sys) = ∅
   \/ exists w now,
        w ∈ W /\ try_body w = Ok (sanctioned_data (globals sys), now))
  /\ Forall (fun t => world t ∈ W) (threads sys).

(** The world in which a thread started by an event runs. *)
Definition event_world (ev : Event) : option World :=
  match ev with
  | Statement _ => None
  | LoopTurn w => Some w
  | PostRefresh _ w => Some w
  end.

(** What the latest successful attempt of a series published, if any
    attempt succeeded. *)
Definition last_success (ws : list World)
    : option (gmap string MatchRecord * string) :=
  last (omap (fun w => match try_body w with
                       | Ok p => Some p
                       | Raise _ => None
                       end) ws).

(** The thread stands in the window of the gate: it has made the test of
    line 78 and found the flag down, and has not yet set it (line 82). *)
Definition in_window (t : Thread) : bool :=
  match pc t with
  | AtSetFlag => true
  | _ => false
  end.

(** The thread is past the test and has not yet run its [finally]
    clause. *)
Definition busy (t : Thread) : bool := in_window t || in_flight t.

(** The event is a test of the flag made while some thread stands in the
    window. *)
Definition tests_in_window (ev : Event) (sys : System) : bool :=
  match ev with
  | Statement i =>
      match threads sys !! i with
      | Some t =>
          match pc t with
          | AtCheck => existsb in_window (threads sys)
          | _ => false
          end
      | None => false
      end
  | _ => false
  end.

(** No event of the history is a test of the flag made while some thread
    stands in the window. *)
Fixpoint window_free (API_KEY : option string) (evs : list Event)
    (sys : System) : bool :=
  match evs with
  | [] => true
  | ev :: rest =>
      negb (tests_in_window ev sys)
      && match serve API_KEY ev sys with
         | Some sys' => window_free API_KEY rest sys'
         | None => true
         end
  end.

(** One attempt at a time: no two threads are past the test together, and
    the flag is up exactly when a thread is in mid-flight. *)
Definition one_at_a_time (sys : System) : Prop :=
  (forall i j ti tj,
      threads sys !! i = Some ti -> threads sys !! j = Some tj ->
      busy ti = true -> busy tj = true -> i = j)
  /\ (is_loading (globals sys) = true <->
      exists j t, threads sys !! j = Some t /\ in_flight t = true).

End Endpoints.

(** ** Trees in a namespace *)

(** The tag of [local] in the namespace [ns], as the parser writes it. *)
Definition clark (ns local : string) : string :=
  "{" +:+ ns +:+ "}" +:+ local.

(** The tree [e] with every tag put in the namespace [ns]. *)
Fixpoint qualify (ns : string) (e : Xml.Element) : Xml.Element :=
  match e with
  | Xml.Elem t x cs => Xml.Elem (clark ns t) x (List.map (qualify ns) cs)
  end.

(** The string does not begin with whitespace. *)
Definition starts_nonspace (s : string) : bool :=
  match s with
  | EmptyString => true
  | String c _ => negb (PyStr.isspace c)
  end.

(** The string does not end with whitespace. *)
Fixpoint ends_nonspace (s : string) : bool :=
  match s with
  | EmptyString => true
  | String c s' =>
      match s' with
      | EmptyString => negb (PyStr.isspace c)
      | String _ _ => ends_nonspace s'
      end
  end.



(** The character [c] occurs in [s]. *)
Fixpoint has_char (c : ascii) (s : string) : bool :=
  match s with
  | EmptyString => false
  | String a s' => Ascii.eqb a c || has_char c s'
  end.

(* ===================================================================== *)
(** * Properties                                                          *)
(* ===================================================================== *)

(** ** Strings *)

Section StringFacts.

Lemma append_cons (c : ascii) (s t : string) :
  String c s +:+ t = String c (s +:+ t).
Proof. reflexivity. Qed.

Lemma append_nil_l (s : string) : "" +:+ s = s.
Proof. reflexivity. Qed.

Lemma prefix_iff (n h : string) :
  String.prefix n h = true <-> exists post, h = n +:+ post.
Proof.
  revert h. induction n as [|c n IH]; intros h.
  - split; [intros _; by exists h | intros _; by destruct h].
  - destruct h as [|d h]; simpl.
    + split; [done|]. intros [post Hpost]. by rewrite append_cons in Hpost.
    + destruct (ascii_dec c d) as [->|Hne].
      * rewrite IH. split; intros [post Hpost]; exists post.
        -- rewrite append_cons. by rewrite Hpost.
        -- rewrite append_cons in Hpost. by injection Hpost.
      * split; [done|]. intros [post Hpost].
        rewrite append_cons in Hpost. by injection Hpost.
Qed.

(** [contains] is the substring relation. *)
Lemma contains_iff (n h : string) :
  contains n h = true <-> exists pre post, h = pre +:+ n +:+ post.
Proof.
  induction h as [|d h IH].
  - change (contains n "") with (String.prefix n "" || false).
    rewrite orb_false_r, prefix_iff. split.
    + intros [post Hpost]. by exists "", post.
    + intros [pre [post Hpost]]. destruct pre as [|c pre].
      * by exists post.
      * by rewrite append_cons in Hpost.
  - change (contains n (String d h))
      with (String.prefix n (String d h) || contains n h).
    rewrite orb_true_iff, prefix_iff, IH. split.
    + intros [[post Hpost]|[pre [post Hpost]]].
      * by exists "", post.
      * exists (String d pre), post. rewrite append_cons. by rewrite Hpost.
    + intros [pre [post Hpost]]. destruct pre as [|c pre].
      * left. by exists post.
      * right. rewrite append_cons in Hpost. injection Hpost as _ Hh.
        by exists pre, post.
Qed.

Lemma truthy_iff (s : string) : truthy s = true <-> s <> "".
Proof. by destruct s. Qed.


Lemma lstrip_all_space (s : string) : all_space s = true -> lstrip s = "".
Proof.
  induction s as [|c s IH]; simpl; [done|].
  intros [Hc Hs]%andb_true_iff. rewrite Hc. auto.
Qed.

Lemma rstrip_all_space (s : string) : all_space s = true -> rstrip s = "".
Proof.
  induction s as [|c s IH]; simpl; [done|].
  intros [Hc Hs]%andb_true_iff. by rewrite IH, Hc.
Qed.

(** A blank string strips to nothing. *)
Lemma strip_all_space (s : string) : all_space s = true -> strip s = "".
Proof. intros H. unfold strip. by rewrite lstrip_all_space. Qed.

Lemma lstrip_app_l (l s : string) :
  all_space l = true -> lstrip (l +:+ s) = lstrip s.
Proof.
  induction l as [|c l IH]; [done|]. simpl.
  intros [Hc Hl]%andb_true_iff. rewrite Hc. auto.
Qed.

Lemma rstrip_app_r (s r : string) :
  all_space r = true -> rstrip (s +:+ r) = rstrip s.
Proof.
  intros Hr. induction s as [|c s IH].
  - rewrite append_nil_l. by apply rstrip_all_space.
  - rewrite append_cons. simpl. by rewrite IH.
Qed.

Lemma strip_app_r (s r : string) :
  all_space r = true -> strip (s +:+ r) = strip s.
Proof.
  intros Hr. unfold strip. induction s as [|c s IH].
  - rewrite append_nil_l. by rewrite lstrip_all_space.
  - rewrite append_cons. simpl. destruct (isspace c); [done|].
    rewrite <- append_cons. by apply rstrip_app_r.
Qed.

(** Whitespace around a string does not change what [strip] returns. *)
Lemma strip_pad (l s r : string) :
  all_space l = true -> all_space r = true ->
  strip (l +:+ s +:+ r) = strip s.
Proof.
  intros Hl Hr. unfold strip. rewrite lstrip_app_l by done.
  by apply strip_app_r.
Qed.

Lemma isspace_lower_char (c : ascii) : isspace (lower_char c) = isspace c.
Proof. by destruct c as [[] [] [] [] [] [] [] []]. Qed.

Lemma lower_lstrip (s : string) : lower (lstrip s) = lstrip (lower s).
Proof.
  induction s as [|c s IH]; [done|]. simpl.
  rewrite isspace_lower_char. by destruct (isspace c).
Qed.

Lemma lower_rstrip (s : string) : lower (rstrip s) = rstrip (lower s).
Proof.
  induction s as [|c s IH]; [done|]. simpl. rewrite <- IH.
  destruct (rstrip s); simpl; [|done].
  rewrite isspace_lower_char. by destruct (isspace c).
Qed.

(** Trimming and lower-casing commute. *)
Lemma lower_strip (s : string) : lower (strip s) = strip (lower s).
Proof. unfold strip. by rewrite lower_rstrip, lower_lstrip. Qed.

Lemma truthy_lower (s : string) : truthy (lower s) = truthy s.
Proof. by destruct s. Qed.

End StringFacts.

(** ** The parsing loop *)

Section ParseFacts.

Lemma process_id_store (name : string) (d : gmap string MatchRecord)
    (id_elem : Element) :
  process_id name d id_elem =
  match id_triple name id_elem with
  | Some t => store d t
  | None => d
  end.
Proof.
  unfold process_id, id_triple.
  destruct (find "idType" id_elem); [|done].
  destruct (find "idNumber" id_elem); [|done].
  by destruct (qualifies _ _).
Qed.

Lemma fold_process_id (name : string) (ids : list Element)
    (d : gmap string MatchRecord) :
  fold_left (process_id name) ids d =
  fold_left store (omap (id_triple name) ids) d.
Proof.
  revert d. induction ids as [|e ids IH]; intros d; [done|].
  simpl. rewrite IH, process_id_store.
  by destruct (id_triple name e).
Qed.

Lemma process_entry_store (d : gmap string MatchRecord) (entry : Element) :
  process_entry d entry = fold_left store (entry_triples entry) d.
Proof.
  unfold process_entry, entry_triples.
  destruct (find "idList" entry); [|done]. apply fold_process_id.
Qed.

Lemma fold_process_entry (entries : list Element)
    (d : gmap string MatchRecord) :
  fold_left process_entry entries d =
  fold_left store (List.concat (List.map entry_triples entries)) d.
Proof.
  revert d. induction entries as [|e entries IH]; intros d; [done|].
  simpl. by rewrite fold_left_app, IH, process_entry_store.
Qed.

(** The loop is [build] after [extract]. *)
Lemma parse_entries_build (root : Element) :
  parse_entries root = build (extract root).
Proof. apply fold_process_entry. Qed.

Lemma build_snoc (ts : list Triple) (t : Triple) :
  build (ts ++ [t]) = store (build ts) t.
Proof. unfold build. by rewrite fold_left_app. Qed.

(** What [build] holds under a key: the record of the last triple whose
    address normalizes to that key. *)
Lemma build_lookup (ts : list Triple) (k : string) :
  build ts !! k =
  triple_record <$> last (filter (fun t => triple_key t = k) ts).
Proof.
  induction ts as [|t ts IH] using rev_ind; [done|].
  rewrite build_snoc, filter_app. unfold store.
  destruct (decide (triple_key t = k)) as [Hk|Hk].
  - rewrite filter_cons_True, filter_nil by done.
    rewrite last_snoc. rewrite Hk. by rewrite lookup_insert_eq.
  - rewrite filter_cons_False, filter_nil by done.
    rewrite app_nil_r. by rewrite lookup_insert_ne.
Qed.

(** The loop on the sample list. *)
Example parse_sample_tree :
  extract (strip_namespaces sample_tree)
    = [(" 1A2b ", "Jo Doe", "Digital Currency Address - XBT")]
  /\ parse_entries (strip_namespaces sample_tree)
     = {[ "1a2b" := {| entity := "Jo Doe";
                       currency_type := "Digital Currency Address - XBT" |} ]}.
Proof.
  split; [reflexivity|]. rewrite parse_entries_build.
  change (extract (strip_namespaces sample_tree))
    with [(" 1A2b ", "Jo Doe", "Digital Currency Address - XBT")].
  apply insert_empty.
Qed.

Lemma name_part_absent : name_part None = [].
Proof. reflexivity. Qed.

(** A name field that is missing, or has no text, or has the empty text,
    adds nothing to the name. *)
Lemma name_part_no_text (e : Element) :
  text_or_empty e = "" -> name_part (Some e) = [].
Proof.
  unfold text_or_empty, name_part. destruct (text e) as [t|]; [|done].
  by intros ->.
Qed.

(** With nothing in [name_parts] the name is the default. *)
Lemma entity_name_default (entry : Element) :
  name_part (find "firstName" entry) = [] ->
  name_part (find "lastName" entry) = [] ->
  entity_name entry = "Unknown Entity".
Proof. unfold entity_name. by intros -> ->. Qed.

End ParseFacts.

(** ** The refresh routine *)

Section RefreshFacts.

(** The [try] block can only be left by an exception of one of its three
    library calls: the loop over the tree raises nothing. *)
Lemma try_body_raise_iff (w : World) (e : Exn) :
  try_body w = Raise e <->
  requests_get w = Raise e
  \/ (exists r, requests_get w = Ok r /\ raise_for_status w r = Raise e)
  \/ (exists r, requests_get w = Ok r /\ raise_for_status w r = Ok tt
                /\ fromstring w (content r) = Raise e).
Proof.
  unfold try_body, bind. split.
  - destruct (requests_get w) as [r|e1] eqn:Hget.
    + destruct (raise_for_status w r) as [[]|e2] eqn:Hst.
      * destruct (fromstring w (content r)) as [root|e3] eqn:Hxml; [done|].
        intros [= ->]. right; right. by exists r.
      * intros [= ->]. right; left. by exists r.
    + intros [= ->]. by left.
  - intros [->|[[r [-> ->]]|[r [-> [-> ->]]]]]; done.
Qed.

Lemma try_body_ok_iff (w : World) (d : gmap string MatchRecord) (now : string) :
  try_body w = Ok (d, now) <->
  exists r root, requests_get w = Ok r /\ raise_for_status w r = Ok tt
    /\ fromstring w (content r) = Ok root
    /\ d = parse_entries (strip_namespaces root) /\ now = utc_now w.
Proof.
  unfold try_body, bind. split.
  - destruct (requests_get w) as [r|e1]; [|done].
    destruct (raise_for_status w r) as [[]|e2] eqn:Hst; [|done].
    destruct (fromstring w (content r)) as [root|e3] eqn:Hxml; [|done].
    intros [= <- <-]. by exists r, root.
  - intros [r [root [-> [-> [-> [-> ->]]]]]]. done.
Qed.

(** The text that an [except] clause records is never empty. *)
Lemma handle_records (e : Exn) (st : State) :
  exn_class e <> NonException ->
  exists msg, handle e st = (set_error (Some msg) st, Returned) /\ msg <> "".
Proof.
  unfold handle. intros Hcls.
  destruct (exn_class e); [eexists; split; [reflexivity|done].. | done].
Qed.

(** A call that finds the flag set does nothing. *)
Lemma refresh_declined (w : World) (st : State) :
  is_loading st = true -> download_and_parse_ofac w st = (st, Returned).
Proof. unfold download_and_parse_ofac. by intros ->. Qed.

(** Whatever happens, a call that got past the gate resets the flag. *)
Lemma refresh_resets_flag (w : World) (st : State) :
  is_loading (download_and_parse_ofac w st).1 = is_loading st.
Proof.
  unfold download_and_parse_ofac.
  destruct (is_loading st) eqn:Hl; [done|].
  by destruct (try_except _ _).
Qed.

(** A failed attempt changes neither the dictionary nor the time stamp. *)
Lemma failed_attempt_keeps (w : World) (st : State) :
  fails w = true ->
  sanctioned_data (download_and_parse_ofac w st).1 = sanctioned_data st
  /\ last_updated (download_and_parse_ofac w st).1 = last_updated st.
Proof.
  unfold fails, download_and_parse_ofac, try_except, handle.
  destruct (try_body w) as [?|e]; [done|]. intros _.
  destruct (is_loading st); [done|].
  by destruct (exn_class e).
Qed.

Lemma run_attempts_failed (ws : list World) (st : State) :
  forallb fails ws = true ->
  sanctioned_data (run_attempts ws st) = sanctioned_data st
  /\ last_updated (run_attempts ws st) = last_updated st
  /\ is_loading (run_attempts ws st) = is_loading st.
Proof.
  revert st. induction ws as [|w ws IH]; intros st; [done|].
  simpl. intros [Hw Hws]%andb_true_iff.
  destruct (IH (download_and_parse_ofac w st).1 Hws) as (-> & -> & ->).
  destruct (failed_attempt_keeps w st Hw) as [-> ->].
  by rewrite refresh_resets_flag.
Qed.

(** The three ways an attempt fails, on the sample worlds. *)
Example refresh_timeout :
  download_and_parse_ofac timeout_world one_entry_state =
  (set_error (Some "Download failed: Read timed out.") one_entry_state,
   Returned).
Proof. reflexivity. Qed.

Example refresh_not_found :
  download_and_parse_ofac not_found_world one_entry_state =
  (set_error
     (Some "Download failed: 404 Client Error: Not Found for url: https://www.treasury.gov/ofac/downloads/sdn.xml")
     one_entry_state,
   Returned).
Proof. reflexivity. Qed.

Example refresh_garbled :
  download_and_parse_ofac garbled_world one_entry_state =
  (set_error (Some "XML parse error: unclosed token: line 1, column 0")
     one_entry_state,
   Returned).
Proof. reflexivity. Qed.

(** An exception outside [Exception] leaves the routine, after the
    [finally] clause has reset the flag. *)
Lemma refresh_propagates (w : World) (st : State) (e : Exn) :
  is_loading st = false -> try_body w = Raise e ->
  exn_class e = NonException ->
  download_and_parse_ofac w st = (set_error None st, Propagated e).
Proof.
  intros Hl Hbody Hcls.
  unfold download_and_parse_ofac, try_except, handle.
  rewrite Hl, Hbody, Hcls. unfold set_loading, set_error; simpl.
  by rewrite <- Hl.
Qed.

End RefreshFacts.

(** ** The check endpoint *)

Section ApiFacts.

Lemma dict_empty_true (d : gmap string MatchRecord) :
  dict_empty d = true <-> d = ∅.
Proof. unfold dict_empty. apply bool_decide_eq_true. Qed.

Lemma dict_empty_false (d : gmap string MatchRecord) :
  dict_empty d = false <-> d <> ∅.
Proof. unfold dict_empty. apply bool_decide_eq_false. Qed.

(** The three outcomes of a call whose key was accepted. *)
Lemma check_wallet_blank (K x : option string) (st : State) (a : string) :
  verify_api_key K x = Success tt -> truthy (strip a) = false ->
  check_wallet K st a x =
  Failure {| http_status := 400; detail := required_detail |}.
Proof. unfold check_wallet. by intros -> ->. Qed.

Lemma check_wallet_not_ready (K x : option string) (st : State) (a : string) :
  verify_api_key K x = Success tt -> truthy (strip a) = true ->
  dict_empty (sanctioned_data st) = true ->
  check_wallet K st a x =
  Failure {| http_status := 503;
             detail := if is_loading st then loading_detail
                       else not_loaded_detail |}.
Proof. unfold check_wallet. by intros -> -> ->. Qed.

Lemma check_wallet_ready (K x : option string) (st : State) (a : string) :
  verify_api_key K x = Success tt -> truthy (strip a) = true ->
  dict_empty (sanctioned_data st) = false ->
  check_wallet K st a x =
  Success {| address := strip a;
             is_sanctioned :=
               match sanctioned_data st !! normalize a with
               | Some _ => true
               | None => false
               end;
             match_ := sanctioned_data st !! normalize a;
             list_last_updated := last_updated st;
             total_addresses_in_list := size (sanctioned_data st) |}.
Proof. unfold check_wallet. by intros -> -> ->. Qed.

(** The reply repeats the address as it was typed, trimmed but with its
    letters as they came. *)
Example check_wallet_echo :
  check_wallet None one_entry_state " AbC " None =
  Success {| address := "AbC"; is_sanctioned := true;
             match_ := Some {| entity := "Org";
                               currency_type := "Digital Currency Address - XBT" |};
             list_last_updated := Some "2024-01-01T00:00:00+00:00";
             total_addresses_in_list := 1 |}
  /\ check_wallet None one_entry_state "abc" None =
     Success {| address := "abc"; is_sanctioned := true;
                match_ := Some {| entity := "Org";
                                  currency_type := "Digital Currency Address - XBT" |};
                list_last_updated := Some "2024-01-01T00:00:00+00:00";
                total_addresses_in_list := 1 |}.
Proof. split; reflexivity. Qed.

End ApiFacts.

(** ** Threads *)

Section ThreadFacts.

(** Executes the statements of a schedule one after the other. *)
Ltac run_statements := repeat (cbn; unfold step_thread).

(** A thread that runs alone does what the routine does as a function. *)
Lemma thread_alone_granted (w : World) (st : State) :
  is_loading st = false ->
  run [0; 0; 0; 0; 0] {| globals := st; threads := [start w] |} =
  Some {| globals := (download_and_parse_ofac w st).1;
          threads := [at_pc (Finished (download_and_parse_ofac w st).2)
                        (start w)] |}.
Proof.
  intros Hl. unfold download_and_parse_ofac. rewrite Hl.
  destruct (try_except w _) as [st' c] eqn:Htry.
  run_statements. rewrite Hl. run_statements. rewrite Htry.
  by run_statements.
Qed.

Lemma thread_alone_declined (w : World) (st : State) :
  is_loading st = true ->
  run [0] {| globals := st; threads := [start w] |} =
  Some {| globals := (download_and_parse_ofac w st).1;
          threads := [at_pc Skipped (start w)] |}.
Proof.
  intros Hl. unfold download_and_parse_ofac. rewrite Hl.
  run_statements. by rewrite Hl.
Qed.

(** A thread that reaches the test of line 78 while the flag is set is
    turned away, and the globals stay as they are. *)
Lemma check_while_loading (i : nat) (sys : System) (t : Thread) :
  threads sys !! i = Some t -> pc t = AtCheck ->
  is_loading (globals sys) = true ->
  step i sys = Some {| globals := globals sys;
                       threads := <[i := at_pc Skipped t]> (threads sys) |}.
Proof.
  intros Ht Hpc Hl. unfold step, step_thread. by rewrite Ht, Hpc, Hl.
Qed.

(** Once a thread has executed line 82, and until some thread executes
    line 149, the flag is set. *)
Lemma set_flag_sets (i : nat) (sys sys' : System) (t : Thread) :
  threads sys !! i = Some t -> pc t = AtSetFlag ->
  step i sys = Some sys' -> is_loading (globals sys') = true.
Proof.
  intros Ht Hpc. unfold step, step_thread. rewrite Ht, Hpc.
  by intros [= <-].
Qed.

(** The race: two attempts that both make the test before either sets the
    flag are both let through. *)
Lemma gate_race (w1 w2 : World) :
  exists sys,
    run [0; 1; 0; 1] (boot [w1; w2]) = Some sys
    /\ forallb granted (threads sys) = true
    /\ forallb in_flight (threads sys) = true
    /\ existsb declined (threads sys) = false.
Proof. eexists. split; [reflexivity|]. done. Qed.

End ThreadFacts.

(* ===================================================================== *)
(** * The claims of the specification                                     *)
(* ===================================================================== *)

(** *** The gate under interleaving *)

Section GateFacts.

Lemma try_except_flag (w : World) (st : State) :
  is_loading (try_except w st).1 = is_loading st.
Proof.
  unfold try_except, handle.
  destruct (try_body w) as [[d now]|e]; [done|].
  by destruct (exn_class e).
Qed.

End GateFacts.

(** C1, counterexample.  The gate of lines 78-82 is a test followed by an
    assignment, and nothing keeps another thread out in between.  Two
    attempts started on the fresh globals, each making the test before
    either sets the flag, are both let through and are in mid-flight
    together. *)
Lemma single_flight_race :
  ~ single_flight (boot [timeout_world; empty_list_world]).
Proof.
  intros Hsf.
  pose proof (Hsf [0; 1; 0; 1] _ eq_refl) as Hle.
  simpl in Hle. lia.
Qed.

(** C2.  A refresh attempt that got past the gate and whose [try] block
    is left by an exception of a class below [Exception] (a network
    failure, an HTTP error status, a parse failure, anything else but a
    process-level exception) returns normally; the dictionary and the time
    stamp are what they were, [load_error] holds a non-empty text, and the
    flag is down. *)
Theorem failed_refresh_last_good (w : World) (st : State) (e : Exn) :
  is_loading st = false ->
  try_body w = Raise e ->
  exn_class e <> NonException ->
  exists st',
    download_and_parse_ofac w st = (st', Returned)
    /\ sanctioned_data st' = sanctioned_data st
    /\ last_updated st' = last_updated st
    /\ (exists msg, load_error st' = Some msg /\ msg <> "")
    /\ is_loading st' = false.
Proof.
  intros Hl Hbody Hcls.
  unfold download_and_parse_ofac, try_except. rewrite Hl, Hbody.
  destruct (handle_records e (set_error None (set_loading true st)) Hcls)
    as (msg & -> & Hmsg).
  eexists. split; [reflexivity|]. simpl.
  repeat split; eauto.
Qed.

Lemma failed_refresh_last_good_witness :
  is_loading one_entry_state = false
  /\ try_body timeout_world
     = Raise {| exn_class := RequestException; exn_text := "Read timed out." |}
  /\ RequestException <> NonException
  /\ exists st',
       download_and_parse_ofac timeout_world one_entry_state = (st', Returned)
       /\ sanctioned_data st' = sanctioned_data one_entry_state
       /\ last_updated st' = last_updated one_entry_state
       /\ (exists msg, load_error st' = Some msg /\ msg <> "")
       /\ is_loading st' = false.
Proof.
  split; [reflexivity|]. split; [reflexivity|]. split; [discriminate|].
  apply (failed_refresh_last_good timeout_world one_entry_state
           {| exn_class := RequestException; exn_text := "Read timed out." |});
    [reflexivity | reflexivity | discriminate].
Defined.

(** C7 (as the code has it).  The name fields are tested before they are
    trimmed.  An entry whose two name fields are both blank gets the name
    made of one space, not "Unknown Entity"; with one blank field alone the
    name is "Unknown Entity". *)
Theorem entity_name_blank_fields :
  entity_name (Elem "sdnEntry" None [Elem "firstName" (Some " ") [];
                                     Elem "lastName" (Some " ") []]) = " "
  /\ entity_name (Elem "sdnEntry" None [Elem "firstName" (Some " ") []])
     = "Unknown Entity".
Proof. split; reflexivity. Qed.

(** C5.  While nothing has been published, a call with an accepted key
    and a non-blank address fails with status 503: so it is after any
    series of failed attempts from start-up, and more generally whenever
    the dictionary is empty (an attempt may be in mid-flight).  On a
    published list a call for an address that is not on it succeeds, with
    [is_sanctioned] false and no match: the two outcomes differ. *)
Theorem check_before_first_publish (K x : option string) (ws : list World)
    (a : string) :
  verify_api_key K x = Success tt ->
  truthy (strip a) = true ->
  forallb fails ws = true ->
  check_wallet K (run_attempts ws initial_state) a x
    = Failure {| http_status := 503; detail := not_loaded_detail |}
  /\ (forall st, sanctioned_data st = ∅ ->
        exists d, check_wallet K st a x
                  = Failure {| http_status := 503; detail := d |})
  /\ (forall st, sanctioned_data st <> ∅ ->
        sanctioned_data st !! normalize a = None ->
        exists resp, check_wallet K st a x = Success resp
                     /\ is_sanctioned resp = false /\ match_ resp = None
                     /\ check_wallet K st a x
                        <> check_wallet K (run_attempts ws initial_state) a x).
Proof.
  intros Hkey Ha Hws.
  destruct (run_attempts_failed ws initial_state Hws) as (Hd & _ & Hl).
  assert (check_wallet K (run_attempts ws initial_state) a x
          = Failure {| http_status := 503; detail := not_loaded_detail |}) as Hnr.
  { rewrite check_wallet_not_ready by (rewrite ?Hd; done). by rewrite Hl. }
  split; [exact Hnr|]. split.
  - intros st Hst. eexists. apply check_wallet_not_ready; try done.
    by apply dict_empty_true.
  - intros st Hst Hlook. rewrite Hnr.
    rewrite check_wallet_ready by (try done; by apply dict_empty_false).
    rewrite Hlook. eexists. by repeat split.
Qed.

Lemma check_before_first_publish_witness :
  verify_api_key None None = Success tt
  /\ truthy (strip "1A2b3C") = true
  /\ forallb fails [timeout_world; timeout_world] = true
  /\ check_wallet None (run_attempts [timeout_world; timeout_world] initial_state)
       "1A2b3C" None
     = Failure {| http_status := 503; detail := not_loaded_detail |}.
Proof.
  split; [reflexivity|]. split; [reflexivity|]. split; [reflexivity|].
  apply (check_before_first_publish None None [timeout_world; timeout_world]
           "1A2b3C"); reflexivity.
Defined.

(** C8.  On a published, non-empty list a call with an accepted key and a
    non-blank address succeeds.  If the normalized address is not a key of
    the list, [is_sanctioned] is false and there is no match; if it is,
    [is_sanctioned] is true and the match is the record stored under
    it. *)
Theorem check_published (K x : option string) (st : State) (a : string) :
  verify_api_key K x = Success tt ->
  truthy (strip a) = true ->
  dict_empty (sanctioned_data st) = false ->
  (sanctioned_data st !! normalize a = None ->
     check_wallet K st a x =
     Success {| address := strip a; is_sanctioned := false; match_ := None;
                list_last_updated := last_updated st;
                total_addresses_in_list := size (sanctioned_data st) |})
  /\ (forall rec, sanctioned_data st !! normalize a = Some rec ->
        check_wallet K st a x =
        Success {| address := strip a; is_sanctioned := true;
                   match_ := Some rec;
                   list_last_updated := last_updated st;
                   total_addresses_in_list := size (sanctioned_data st) |}).
Proof.
  intros Hkey Ha Hd. rewrite (check_wallet_ready K x st a Hkey Ha Hd).
  split; [intros ->; done | intros rec ->; done].
Qed.

Lemma check_published_witness :
  verify_api_key (Some "k3y") (Some "k3y") = Success tt
  /\ truthy (strip " ABC") = true
  /\ dict_empty (sanctioned_data one_entry_state) = false
  /\ check_wallet (Some "k3y") one_entry_state " ABC" (Some "k3y") =
     Success {| address := "ABC"; is_sanctioned := true;
                match_ := Some {| entity := "Org";
                                  currency_type := "Digital Currency Address - XBT" |};
                list_last_updated := last_updated one_entry_state;
                total_addresses_in_list := 1 |}.
Proof.
  split; [reflexivity|]. split; [reflexivity|]. split; [reflexivity|].
  apply (check_published (Some "k3y") (Some "k3y") one_entry_state " ABC");
    reflexivity.
Defined.

(** C9.  A call with an accepted key and an address that is empty or
    blank fails with status 400 and the "required" text, whatever the
    globals hold: the test comes before the dictionary is looked at. *)
Theorem check_blank_address (K x : option string) (st : State) (a : string) :
  verify_api_key K x = Success tt ->
  all_space a = true ->
  check_wallet K st a x =
  Failure {| http_status := 400; detail := required_detail |}.
Proof.
  intros Hkey Ha. apply check_wallet_blank; [done|].
  by rewrite strip_all_space.
Qed.

Lemma check_blank_address_witness :
  verify_api_key None (Some "any") = Success tt
  /\ all_space "  " = true
  /\ check_wallet None initial_state "  " (Some "any") =
     Failure {| http_status := 400; detail := required_detail |}.
Proof.
  split; [reflexivity|]. split; [reflexivity|].
  apply (check_blank_address None (Some "any") initial_state "  ");
    reflexivity.
Defined.

(** C10.  A refresh that succeeds on a document without any qualifying
    identifier publishes the empty dictionary, with a fresh time stamp and
    no error.  From then on a call with an accepted key and a non-blank
    address fails with status 503, and every call is answered exactly as
    on the globals of a process that has never loaded a list. *)
Theorem empty_publish_not_ready (w : World) (st : State) (r : Response)
    (root : Element) :
  is_loading st = false ->
  requests_get w = Ok r ->
  raise_for_status w r = Ok tt ->
  fromstring w (content r) = Ok root ->
  extract (strip_namespaces root) = [] ->
  exists st',
    download_and_parse_ofac w st = (st', Returned)
    /\ sanctioned_data st' = ∅
    /\ last_updated st' = Some (utc_now w)
    /\ load_error st' = None
    /\ is_loading st' = false
    /\ (forall K x a,
          verify_api_key K x = Success tt -> truthy (strip a) = true ->
          check_wallet K st' a x
          = Failure {| http_status := 503; detail := not_loaded_detail |})
    /\ (forall K x a,
          check_wallet K st' a x = check_wallet K initial_state a x).
Proof.
  intros Hl Hget Hstatus Hxml Hnone.
  assert (try_body w = Ok (∅, utc_now w)) as Hbody.
  { apply try_body_ok_iff. exists r, root. repeat split; try done.
    by rewrite parse_entries_build, Hnone. }
  unfold download_and_parse_ofac, try_except. rewrite Hl, Hbody.
  eexists. split; [reflexivity|]. simpl.
  do 4 (split; [reflexivity|]). split.
  - intros K x a Hkey Ha. by rewrite check_wallet_not_ready.
  - intros K x a. unfold check_wallet; simpl.
    destruct (verify_api_key K x); [|done].
    by destruct (truthy (strip a)).
Qed.

Lemma empty_publish_not_ready_witness :
  is_loading one_entry_state = false
  /\ requests_get empty_list_world
     = Ok {| status_code := 200; content := "<sdnList/>" |}
  /\ extract (strip_namespaces (Elem "sdnList" None [])) = []
  /\ exists st',
       download_and_parse_ofac empty_list_world one_entry_state
       = (st', Returned)
       /\ sanctioned_data st' = ∅
       /\ last_updated st' = Some (utc_now empty_list_world)
       /\ load_error st' = None
       /\ is_loading st' = false
       /\ (forall K x a,
             verify_api_key K x = Success tt -> truthy (strip a) = true ->
             check_wallet K st' a x
             = Failure {| http_status := 503; detail := not_loaded_detail |})
       /\ (forall K x a,
             check_wallet K st' a x = check_wallet K initial_state a x).
Proof.
  split; [reflexivity|]. split; [reflexivity|]. split; [reflexivity|].
  apply (empty_publish_not_ready empty_list_world one_entry_state
           {| status_code := 200; content := "<sdnList/>" |}
           (Elem "sdnList" None [])); reflexivity.
Defined.

(* ===================================================================== *)
(** * Further properties of the code                                      *)
(* ===================================================================== *)

Import Endpoints.

(** ** More on strings *)

Section MoreStringFacts.

Lemma append_assoc (s t u : string) : (s +:+ t) +:+ u = s +:+ t +:+ u.
Proof.
  induction s as [|c s IH]; [reflexivity|].
  rewrite !append_cons. by rewrite IH.
Qed.

Lemma lstrip_head (s : string) :
  lstrip s = "" \/ exists c t, lstrip s = String c t /\ isspace c = false.
Proof.
  induction s as [|c s IH]; [by left|]. simpl.
  destruct (isspace c) eqn:Hc; [done|]. right. by exists c, s.
Qed.

Lemma rstrip_cons_nonspace (c : ascii) (s : string) :
  isspace c = false -> rstrip (String c s) = String c (rstrip s).
Proof. intros Hc. simpl. destruct (rstrip s); by rewrite ?Hc. Qed.

Lemma lstrip_cons_nonspace (c : ascii) (s : string) :
  isspace c = false -> lstrip (String c s) = String c s.
Proof. intros Hc. simpl. by rewrite Hc. Qed.

Lemma rstrip_idem (s : string) : rstrip (rstrip s) = rstrip s.
Proof.
  induction s as [|c s IH]; [done|]. simpl.
  destruct (rstrip s) as [|d t] eqn:Hr.
  - destruct (isspace c) eqn:Hc; [done|]. simpl. by rewrite Hc.
  - change (rstrip (String c (String d t))) with
      (match rstrip (String d t) with
       | "" => if isspace c then "" else String c ""
       | String a u => String c (String a u)
       end).
    by rewrite IH.
Qed.

(** What [strip] returns has nothing left to strip. *)
Lemma strip_idem (s : string) : strip (strip s) = strip s.
Proof.
  unfold strip. destruct (lstrip_head s) as [->|(c & t & -> & Hc)]; [done|].
  rewrite (rstrip_cons_nonspace c t Hc).
  rewrite (lstrip_cons_nonspace c (rstrip t) Hc).
  rewrite (rstrip_cons_nonspace c (rstrip t) Hc). by rewrite rstrip_idem.
Qed.

Lemma lower_char_idem (c : ascii) : lower_char (lower_char c) = lower_char c.
Proof. by destruct c as [[] [] [] [] [] [] [] []]. Qed.

Lemma lower_idem (s : string) : lower (lower s) = lower s.
Proof.
  induction s as [|c s IH]; [done|]. simpl.
  by rewrite lower_char_idem, IH.
Qed.

(** A key is its own key. *)
Lemma normalize_idem (a : string) : normalize (normalize a) = normalize a.
Proof.
  unfold normalize. by rewrite <- lower_strip, lower_idem, strip_idem.
Qed.

Lemma normalize_truthy (a : string) :
  truthy (normalize a) = truthy (strip a).
Proof. apply truthy_lower. Qed.

Lemma lstrip_keeps (c : ascii) (pre rest : string) :
  isspace c = false ->
  exists pre', lstrip (pre +:+ String c rest) = pre' +:+ String c rest.
Proof.
  intros Hc. induction pre as [|a pre IH].
  - exists "". rewrite !append_nil_l. by apply lstrip_cons_nonspace.
  - rewrite append_cons. simpl. destruct (isspace a).
    + exact IH.
    + exists (String a pre). by rewrite append_cons.
Qed.

Lemma rstrip_keeps (l : ascii) (x post : string) :
  isspace l = false ->
  rstrip (x +:+ String l post) = x +:+ String l (rstrip post).
Proof.
  intros Hl. induction x as [|a x IH].
  - rewrite !append_nil_l. by apply rstrip_cons_nonspace.
  - rewrite !append_cons. simpl. rewrite IH.
    by destruct x.
Qed.

(** A phrase that begins and ends with a character other than whitespace
    survives [strip]. *)
Lemma contains_strip (c l : ascii) (mid s : string) :
  isspace c = false -> isspace l = false ->
  contains (String c (mid +:+ String l "")) s = true ->
  contains (String c (mid +:+ String l "")) (strip s) = true.
Proof.
  intros Hc Hl [pre [post ->]]%contains_iff. apply contains_iff.
  unfold strip. rewrite append_cons.
  destruct (lstrip_keeps c pre ((mid +:+ String l "") +:+ post) Hc)
    as [pre' ->].
  rewrite append_assoc, append_cons, append_nil_l.
  rewrite <- (append_cons c mid (String l post)).
  rewrite <- (append_assoc pre' (String c mid) (String l post)).
  rewrite (rstrip_keeps l _ post Hl).
  exists pre', (rstrip post).
  rewrite append_assoc, !append_cons. do 2 f_equal.
  by rewrite append_assoc, append_cons, append_nil_l.
Qed.

End MoreStringFacts.

(** ** What the parsing loop stores *)

Section StoredFacts.

Lemma id_triple_qualifies (name : string) (id_elem : Element) (t : Triple) :
  id_triple name id_elem = Some t ->
  t.1.2 = name /\ qualifies t.2 t.1.1 = true.
Proof.
  unfold id_triple.
  destruct (find "idType" id_elem) as [ty|]; [|done].
  destruct (find "idNumber" id_elem) as [num|]; [|done].
  destruct (qualifies _ _) eqn:Hq; [|done]. by intros [= <-].
Qed.

Lemma extract_elem (root : Element) (t : Triple) :
  t ∈ extract root ->
  exists entry, t.1.2 = entity_name entry /\ qualifies t.2 t.1.1 = true.
Proof.
  unfold extract. rewrite list_elem_of_In, in_concat.
  intros (ts & Hts & Ht). apply in_map_iff in Hts as (entry & <- & _).
  exists entry. unfold entry_triples in Ht.
  destruct (find "idList" entry) as [id_list|]; [|done].
  apply list_elem_of_In, list_elem_of_omap in Ht as (id_elem & _ & Hid).
  by apply id_triple_qualifies in Hid.
Qed.

Lemma build_lookup_elem (ts : list Triple) (k : string) (r : MatchRecord) :
  build ts !! k = Some r ->
  exists t, t ∈ ts /\ triple_key t = k /\ r = triple_record t.
Proof.
  rewrite build_lookup.
  destruct (last _) as [t|] eqn:Hlast; [|done]. intros [= <-].
  apply last_Some_elem_of, list_elem_of_filter in Hlast as [Hk Ht].
  by exists t.
Qed.

Lemma build_elem_lookup (ts : list Triple) (t : Triple) :
  t ∈ ts -> is_Some (build ts !! triple_key t).
Proof.
  intros Ht. rewrite build_lookup.
  assert (t ∈ filter (fun u => triple_key u = triple_key t) ts) as Hin
    by by apply list_elem_of_filter.
  destruct (filter _ ts) as [|u us] using rev_ind.
  - by apply not_elem_of_nil in Hin.
  - rewrite last_snoc. by eexists.
Qed.

Lemma entity_name_nonempty (entry : Element) : entity_name entry <> "".
Proof.
  unfold entity_name, or_else.
  destruct (truthy _) eqn:Ht; [by apply truthy_iff | done].
Qed.

Lemma build_size (ts : list Triple) : size (build ts) <= List.length ts.
Proof.
  induction ts as [|t ts IH] using rev_ind; [done|].
  rewrite build_snoc, length_app. unfold store. rewrite map_size_insert.
  destruct (build ts !! triple_key t); simpl; lia.
Qed.

Lemma build_empty_iff (ts : list Triple) : build ts = ∅ <-> ts = [].
Proof.
  split; [|by intros ->].
  intros Hempty. destruct ts as [|t ts]; [done|].
  assert (t ∈ t :: ts) as Ht by apply list_elem_of_here.
  apply build_elem_lookup in Ht as [r Hr].
  by rewrite Hempty, lookup_empty in Hr.
Qed.

End StoredFacts.

(** X1.  Every entry of the dictionary that the loop builds is well
    formed: its key is not empty and is its own normal form (trimmed and in
    lower case), its entity is not empty, and its currency label is trimmed
    and contains "Digital Currency Address". *)
Theorem parsed_entry_well_formed (root : Element) (k : string)
    (r : MatchRecord) :
  parse_entries root !! k = Some r ->
  k <> ""
  /\ normalize k = k
  /\ entity r <> ""
  /\ strip (currency_type r) = currency_type r
  /\ contains "Digital Currency Address" (currency_type r) = true.
Proof.
  rewrite parse_entries_build.
  intros (t & Ht & <- & ->)%build_lookup_elem.
  apply extract_elem in Ht as (entry & Hname & Hq).
  apply andb_true_iff in Hq as [Hlabel Hnum].
  unfold triple_key, triple_record; simpl.
  split; [|split; [|split; [|split]]].
  - apply truthy_iff. by rewrite normalize_truthy.
  - apply normalize_idem.
  - rewrite Hname. apply entity_name_nonempty.
  - apply strip_idem.
  - change "Digital Currency Address"
      with (String "D" ("igital Currency Addres" +:+ String "s" "")).
    by apply contains_strip.
Qed.

Lemma parsed_entry_well_formed_witness :
  parse_entries (strip_namespaces sample_tree) !! "1a2b"
    = Some {| entity := "Jo Doe";
              currency_type := "Digital Currency Address - XBT" |}
  /\ "1a2b" <> ""
  /\ normalize "1a2b" = "1a2b".
Proof.
  assert (parse_entries (strip_namespaces sample_tree) !! "1a2b"
          = Some {| entity := "Jo Doe";
                    currency_type := "Digital Currency Address - XBT" |})
    as Hlook.
  { rewrite parse_entries_build.
    change (extract (strip_namespaces sample_tree))
      with [(" 1A2b ", "Jo Doe", "Digital Currency Address - XBT")].
    apply lookup_insert_eq. }
  split; [exact Hlook|].
  destruct (parsed_entry_well_formed _ _ _ Hlook) as (Hk & Hn & _).
  by split.
Defined.

(** X2.  The dictionary has at most as many entries as the document has
    qualifying identifiers, and it is empty only if there is none. *)
Theorem parse_entries_size (root : Element) :
  size (parse_entries root) <= List.length (extract root)
  /\ (parse_entries root = ∅ <-> extract root = []).
Proof.
  rewrite parse_entries_build. split; [apply build_size|].
  apply build_empty_iff.
Qed.

(** ** Refresh and lookup together *)

Section ServiceFacts.

Lemma refresh_success (w : World) (st : State)
    (d : gmap string MatchRecord) (now : string) :
  is_loading st = false -> try_body w = Ok (d, now) ->
  download_and_parse_ofac w st =
  ({| sanctioned_data := d; last_updated := Some now;
      is_loading := false; load_error := None |}, Returned).
Proof.
  intros Hl Hbody. unfold download_and_parse_ofac, try_except.
  by rewrite Hl, Hbody.
Qed.

Lemma run_attempts_snoc (ws : list World) (w : World) (st : State) :
  run_attempts (ws ++ [w]) st
  = (download_and_parse_ofac w (run_attempts ws st)).1.
Proof. unfold run_attempts. by rewrite fold_left_app. Qed.

Lemma run_attempts_flag (ws : list World) (st : State) :
  is_loading (run_attempts ws st) = is_loading st.
Proof.
  induction ws as [|w ws IH] using rev_ind; [done|].
  by rewrite run_attempts_snoc, refresh_resets_flag.
Qed.

Lemma last_success_snoc (ws : list World) (w : World) :
  last_success (ws ++ [w]) =
  match try_body w with
  | Ok p => Some p
  | Raise _ => last_success ws
  end.
Proof.
  unfold last_success. rewrite omap_app. simpl.
  destruct (try_body w) as [p|e]; simpl.
  - by rewrite last_snoc.
  - by rewrite app_nil_r.
Qed.

Lemma failed_attempt_data (w : World) (st : State) (e : Exn) :
  try_body w = Raise e ->
  sanctioned_data (download_and_parse_ofac w st).1 = sanctioned_data st
  /\ last_updated (download_and_parse_ofac w st).1 = last_updated st.
Proof.
  intros Hbody. apply failed_attempt_keeps. unfold fails. by rewrite Hbody.
Qed.

Lemma completion_returned (w : World) (st : State) :
  (forall e, try_body w = Raise e -> exn_class e <> NonException) ->
  (download_and_parse_ofac w st).2 = Returned.
Proof.
  intros Hcls. unfold download_and_parse_ofac, try_except.
  destruct (is_loading st); [done|].
  destruct (try_body w) as [[d now]|e] eqn:Hbody; [done|].
  destruct (handle_records e (set_error None (set_loading true st))
              (Hcls e eq_refl)) as (msg & -> & _).
  done.
Qed.

End ServiceFacts.

(** X3.  Refresh and lookup together.  After a refresh that succeeded on
    a document with at least one qualifying identifier, a call with an
    accepted key and a non-blank address succeeds, and it reports the
    address as sanctioned exactly when some extracted identifier has the
    same normal form; the reply carries the time stamp of that refresh. *)
Theorem sanctioned_iff_extracted (K x : option string) (w : World)
    (st : State) (r : Response) (root : Element) (a : string) :
  is_loading st = false ->
  requests_get w = Ok r ->
  raise_for_status w r = Ok tt ->
  fromstring w (content r) = Ok root ->
  extract (strip_namespaces root) <> [] ->
  verify_api_key K x = Success tt ->
  truthy (strip a) = true ->
  exists resp,
    check_wallet K (download_and_parse_ofac w st).1 a x = Success resp
    /\ (is_sanctioned resp = true <->
        exists t, t ∈ extract (strip_namespaces root)
                  /\ normalize t.1.1 = normalize a)
    /\ list_last_updated resp = Some (utc_now w)
    /\ total_addresses_in_list resp
       <= List.length (extract (strip_namespaces root)).
Proof.
  intros Hl Hget Hstatus Hxml Hsome Hkey Ha.
  assert (try_body w
          = Ok (parse_entries (strip_namespaces root), utc_now w)) as Hbody.
  { apply try_body_ok_iff. by exists r, root. }
  rewrite (refresh_success w st _ _ Hl Hbody). simpl.
  rewrite check_wallet_ready; [|done|done|]; simpl.
  - eexists. split; [reflexivity|]. simpl.
    rewrite parse_entries_build.
    split; [|split; [done | apply build_size]].
    destruct (build _ !! normalize a) as [rec|] eqn:Hlook.
    + split; [intros _|done].
      apply build_lookup_elem in Hlook as (t & Ht & Hk & _). by exists t.
    + split; [done|]. intros (t & Ht & Hk).
      apply build_elem_lookup in Ht as [rec Hrec].
      unfold triple_key in Hrec. rewrite Hk in Hrec. congruence.
  - apply dict_empty_false. rewrite parse_entries_build.
    intros Hempty. by apply build_empty_iff in Hempty.
Qed.

Lemma sanctioned_iff_extracted_witness :
  is_loading initial_state = false
  /\ extract (strip_namespaces sample_tree) <> []
  /\ exists resp,
       check_wallet None (download_and_parse_ofac sample_world initial_state).1
         "1A2B" None = Success resp
       /\ (is_sanctioned resp = true <->
           exists t, t ∈ extract (strip_namespaces sample_tree)
                     /\ normalize t.1.1 = normalize "1A2B")
       /\ list_last_updated resp = Some (utc_now sample_world)
       /\ total_addresses_in_list resp
          <= List.length (extract (strip_namespaces sample_tree)).
Proof.
  split; [reflexivity|]. split; [discriminate|].
  apply (sanctioned_iff_extracted None None sample_world initial_state
           {| status_code := 200; content := "<sdnList>...</sdnList>" |}
           sample_tree "1A2B"); try reflexivity.
  discriminate.
Defined.

(** X4.  Calling the routine again in the same world changes nothing
    more: the globals and the way the call ends are those of the first
    call. *)
Theorem refresh_idempotent (w : World) (st : State) :
  download_and_parse_ofac w (download_and_parse_ofac w st).1
  = download_and_parse_ofac w st.
Proof.
  unfold download_and_parse_ofac, try_except, handle.
  destruct (is_loading st) eqn:Hl; simpl.
  - by rewrite Hl.
  - destruct (try_body w) as [[d now]|e]; simpl.
    + done.
    + by destruct (exn_class e).
Qed.

(** X5.  Last good value over a series of attempts made one after the
    other: the dictionary and the time stamp are those of the latest
    attempt that succeeded, or the ones held before the series if none
    did, and the flag is down again. *)
Theorem run_attempts_last_good (ws : list World) (st : State) :
  is_loading st = false ->
  sanctioned_data (run_attempts ws st)
    = from_option fst (sanctioned_data st) (last_success ws)
  /\ last_updated (run_attempts ws st)
     = from_option (fun p => Some p.2) (last_updated st) (last_success ws)
  /\ is_loading (run_attempts ws st) = false.
Proof.
  intros Hl. split; [|split; [|by rewrite run_attempts_flag]].
  - induction ws as [|w ws IH] using rev_ind; [done|].
    rewrite run_attempts_snoc, last_success_snoc.
    destruct (try_body w) as [[d now]|e] eqn:Hbody.
    + by rewrite (refresh_success w _ d now)
        by (by rewrite ?run_attempts_flag).
    + by rewrite (proj1 (failed_attempt_data w _ e Hbody)).
  - induction ws as [|w ws IH] using rev_ind; [done|].
    rewrite run_attempts_snoc, last_success_snoc.
    destruct (try_body w) as [[d now]|e] eqn:Hbody.
    + by rewrite (refresh_success w _ d now)
        by (by rewrite ?run_attempts_flag).
    + by rewrite (proj2 (failed_attempt_data w _ e Hbody)).
Qed.

Lemma run_attempts_last_good_witness :
  is_loading initial_state = false
  /\ sanctioned_data
       (run_attempts [timeout_world; sample_world; garbled_world] initial_state)
     = parse_entries (strip_namespaces sample_tree)
  /\ last_updated
       (run_attempts [timeout_world; sample_world; garbled_world] initial_state)
     = Some (utc_now sample_world).
Proof.
  split; [reflexivity|].
  destruct (run_attempts_last_good
              [timeout_world; sample_world; garbled_world] initial_state
              eq_refl) as (Hd & Hu & _).
  split; [exact Hd | exact Hu].
Defined.

(** X6.  The background loop outlives failed refreshes: as long as no
    call of the routine lets an exception through, that is as long as
    every exception raised in a [try] block is below [Exception], the loop
    makes all its turns, and the globals are those of the attempts made in
    a row. *)
Theorem background_loop_survives (ws : list World) (st : State) :
  Forall (fun w => forall e, try_body w = Raise e ->
                             exn_class e <> NonException) ws ->
  background_refresh_loop ws st = (run_attempts ws st, Returned).
Proof.
  intros Hws. revert st. induction Hws as [|w ws Hw _ IH]; intros st; [done|].
  simpl. pose proof (completion_returned w st Hw) as Hret.
  destruct (download_and_parse_ofac w st) as [st' c]. simpl in Hret.
  rewrite Hret. apply IH.
Qed.

Lemma background_loop_survives_witness :
  background_refresh_loop [timeout_world; not_found_world; sample_world]
    initial_state
  = (run_attempts [timeout_world; not_found_world; sample_world]
       initial_state, Returned).
Proof.
  apply (background_loop_survives
           [timeout_world; not_found_world; sample_world] initial_state).
  repeat constructor; intros e [= <-]; discriminate.
Defined.

(** X7.  The loop ends for good at the first call that lets an exception
    through: the turns after it are never made.  The flag has been reset
    and the published list is untouched, so the endpoints go on serving
    it. *)
Theorem background_loop_ends (ws rest : list World) (w : World) (st : State)
    (e : Exn) :
  is_loading st = false ->
  Forall (fun w => forall e, try_body w = Raise e ->
                             exn_class e <> NonException) ws ->
  try_body w = Raise e ->
  exn_class e = NonException ->
  exists st',
    background_refresh_loop (ws ++ w :: rest) st = (st', Propagated e)
    /\ sanctioned_data st' = sanctioned_data (run_attempts ws st)
    /\ last_updated st' = last_updated (run_attempts ws st)
    /\ is_loading st' = false.
Proof.
  intros Hl Hws Hbody Hcls. revert st Hl.
  induction Hws as [|w0 ws Hw0 _ IH]; intros st Hl; simpl.
  - rewrite (refresh_propagates w st e Hl Hbody Hcls).
    eexists. split; [reflexivity|]. by simpl.
  - pose proof (completion_returned w0 st Hw0) as Hret.
    pose proof (refresh_resets_flag w0 st) as Hflag.
    destruct (download_and_parse_ofac w0 st) as [st0 c].
    simpl in Hret, Hflag. rewrite Hret. simpl. apply IH.
    by rewrite Hflag.
Qed.

Lemma background_loop_ends_witness :
  is_loading initial_state = false
  /\ try_body exit_world
     = Raise {| exn_class := NonException; exn_text := "SystemExit" |}
  /\ exists st',
       background_refresh_loop ([sample_world] ++ exit_world :: [sample_world])
         initial_state
       = (st', Propagated {| exn_class := NonException;
                             exn_text := "SystemExit" |})
       /\ sanctioned_data st'
          = sanctioned_data (run_attempts [sample_world] initial_state)
       /\ last_updated st'
          = last_updated (run_attempts [sample_world] initial_state)
       /\ is_loading st' = false.
Proof.
  split; [reflexivity|]. split; [reflexivity|].
  apply (background_loop_ends [sample_world] [sample_world] exit_world
           initial_state
           {| exn_class := NonException; exn_text := "SystemExit" |});
    try reflexivity.
  repeat constructor; intros e [= <-].
Defined.

(** ** The endpoints *)


(** X8.  The key check lets a request through exactly when no key is
    configured, or the configured key is the empty string, or the header
    carries the configured key; every other request is answered 401. *)
Theorem verify_api_key_iff (K x : option string) :
  (verify_api_key K x = Success tt <-> K = None \/ K = Some "" \/ x = K)
  /\ (verify_api_key K x <> Success tt ->
      exists d, verify_api_key K x
                = Failure {| http_status := 401; detail := d |}).
Proof.
  unfold verify_api_key. destruct K as [key|].
  - destruct key as [|c key]; simpl.
    + split; [|done]. split; [auto|done].
    + destruct (bool_decide (x = Some (String c key))) eqn:Hx; simpl.
      * apply bool_decide_eq_true in Hx. split; [|done]. split; [auto|done].
      * apply bool_decide_eq_false in Hx. split; [|eauto].
        split; [done|]. by intros [|[|]].
  - split; [|done]. split; [auto|done].
Qed.


(** X10.  [/status] and [/check] agree.  For a request with an accepted
    key and a non-blank address: when the status is "ready" the check
    succeeds; when it is "not_loaded" the check fails with 503 and the
    "has not loaded yet" text; when it is "loading" the check either
    succeeds on the list published before, or fails with 503 and the "still
    loading" text if there is none.  Both report the same number of
    addresses and the same time stamp. *)
Theorem status_agrees_with_check (K x : option string) (st : State)
    (a : string) :
  verify_api_key K x = Success tt ->
  truthy (strip a) = true ->
  exists s,
    status K st x = Success s
    /\ auto_refresh_every_hours s = 24%Z
    /\ error s = load_error st
    /\ ((exists resp,
           check_wallet K st a x = Success resp
           /\ (status_text s = "ready" \/ status_text s = "loading")
           /\ total_addresses_in_list resp = total_sanctioned_addresses s
           /\ list_last_updated resp = status_last_updated s)
        \/ (check_wallet K st a x
              = Failure {| http_status := 503; detail := not_loaded_detail |}
            /\ status_text s = "not_loaded"
            /\ total_sanctioned_addresses s = 0)
        \/ (check_wallet K st a x
              = Failure {| http_status := 503; detail := loading_detail |}
            /\ status_text s = "loading"
            /\ total_sanctioned_addresses s = 0)).
Proof.
  intros Hkey Ha. unfold status. rewrite Hkey.
  eexists. split; [reflexivity|]. simpl. split; [done|]. split; [done|].
  destruct (dict_empty (sanctioned_data st)) eqn:Hd.
  - right. rewrite (check_wallet_not_ready K x st a Hkey Ha Hd).
    apply dict_empty_true in Hd. rewrite Hd, map_size_empty.
    destruct (is_loading st); [right | left]; done.
  - left. rewrite (check_wallet_ready K x st a Hkey Ha Hd).
    eexists. split; [reflexivity|]. simpl.
    split; [|done]. destruct (is_loading st); auto.
Qed.

Lemma status_agrees_with_check_witness :
  verify_api_key None None = Success tt
  /\ truthy (strip "abc") = true
  /\ exists s,
       status None one_entry_state None = Success s
       /\ status_text s = "ready"
       /\ total_sanctioned_addresses s = 1.
Proof.
  split; [reflexivity|]. split; [reflexivity|].
  destruct (status_agrees_with_check None None one_entry_state "abc"
              eq_refl eq_refl) as (s & Hs & _).
  exists s. split; [exact Hs|]. by injection Hs as <-.
Defined.

(** X11.  A lookup does not depend on a refresh being under way.  On a
    non-empty list the reply of [/check] is a function of the dictionary
    and its time stamp alone: neither the in-progress flag nor a recorded
    error changes it. *)
Theorem check_ignores_refresh (K x : option string) (st st' : State)
    (a : string) :
  sanctioned_data st = sanctioned_data st' ->
  last_updated st = last_updated st' ->
  sanctioned_data st <> ∅ ->
  check_wallet K st a x = check_wallet K st' a x.
Proof.
  intros Hd Hu Hne. unfold check_wallet.
  destruct (verify_api_key K x); [|done].
  destruct (truthy (strip a)); [|done]. simpl.
  rewrite <- Hd, <- Hu.
  apply dict_empty_false in Hne. by rewrite Hne.
Qed.

Lemma check_ignores_refresh_witness :
  sanctioned_data one_entry_state
    = sanctioned_data (set_error (Some "Download failed: Read timed out.")
                         (set_loading true one_entry_state))
  /\ check_wallet None one_entry_state "abc" None
     = check_wallet None
         (set_error (Some "Download failed: Read timed out.")
            (set_loading true one_entry_state)) "abc" None.
Proof.
  split; [reflexivity|].
  apply (check_ignores_refresh None None one_entry_state
           (set_error (Some "Download failed: Read timed out.")
              (set_loading true one_entry_state)) "abc");
    [reflexivity | reflexivity |].
  intros Hempty. by apply (f_equal (fun d => d !! "abc")) in Hempty.
Defined.

(** ** Histories of the running process *)

Section HistoryFacts.

Lemma step_thread_backed (t t' : Thread) (st st' : State) :
  step_thread t st = Some (t', st') ->
  is_loading st' = true ->
  in_flight t' = true \/ (in_flight t = false /\ is_loading st = true).
Proof.
  unfold step_thread, in_flight. destruct (pc t) eqn:Hpc.
  - destruct (is_loading st) eqn:Hl; intros [= <- <-]; simpl.
    + auto.
    + intros Hl'. congruence.
  - intros [= <- <-]. by left.
  - intros [= <- <-]. by left.
  - destruct (try_except (world t) st) as [st1 c]. intros [= <- <-]. by left.
  - by intros [= <- <-].
  - done.
  - done.
Qed.

Lemma step_flag_backed (i : nat) (sys sys' : System) :
  flag_backed sys -> step i sys = Some sys' -> flag_backed sys'.
Proof.
  intros Hinv. unfold step.
  destruct (threads sys !! i) as [t|] eqn:Ht; [|done].
  destruct (step_thread t (globals sys)) as [[t' st']|] eqn:Hs; [|done].
  intros [= <-] Hl. simpl in *.
  destruct (step_thread_backed _ _ _ _ Hs Hl) as [Hin|[Hout Hl0]].
  - exists i, t'. split; [|done].
    apply list_lookup_insert_eq. by apply (lookup_lt_Some _ _ t).
  - destruct (Hinv Hl0) as (j & t0 & Hj & Hfl).
    exists j, t0. split; [|done].
    rewrite list_lookup_insert_ne; [done|].
    intros ->. rewrite Ht in Hj. injection Hj as ->. congruence.
Qed.

Lemma spawn_flag_backed (sys : System) (w : World) :
  flag_backed sys ->
  flag_backed {| globals := globals sys; threads := threads sys ++ [start w] |}.
Proof.
  intros Hinv Hl. destruct (Hinv Hl) as (j & t & Hj & Hfl).
  exists j, t. split; [|done]. simpl. by apply lookup_app_l_Some.
Qed.

Lemma manual_refresh_flag_backed (K x : option string) (sys : System)
    (w : World) :
  flag_backed sys -> flag_backed (manual_refresh K sys w x).2.
Proof.
  intros Hinv. unfold manual_refresh.
  destruct (verify_api_key K x); [|done].
  destruct (is_loading (globals sys)); [done|]. by apply spawn_flag_backed.
Qed.

Lemma serve_flag_backed (K : option string) (ev : Event) (sys sys' : System) :
  flag_backed sys -> serve K ev sys = Some sys' -> flag_backed sys'.
Proof.
  intros Hinv. destruct ev as [i|w|x w]; simpl.
  - by apply step_flag_backed.
  - intros [= <-]. by apply spawn_flag_backed.
  - intros [= <-]. by apply manual_refresh_flag_backed.
Qed.

Lemma history_flag_backed (K : option string) (evs : list Event)
    (sys sys' : System) :
  flag_backed sys -> history K evs sys = Some sys' -> flag_backed sys'.
Proof.
  revert sys. induction evs as [|ev evs IH]; intros sys Hinv; simpl.
  - by intros [= <-].
  - destruct (serve K ev sys) as [sys1|] eqn:Hserve; [|done].
    apply IH. by apply (serve_flag_backed K ev sys).
Qed.

Lemma process_start_flag_backed : flag_backed process_start.
Proof. by intros Hl. Qed.

Lemma step_thread_published (t t' : Thread) (st st' : State) :
  step_thread t st = Some (t', st') ->
  world t' = world t
  /\ (sanctioned_data st' = sanctioned_data st
      \/ exists now, try_body (world t) = Ok (sanctioned_data st', now)).
Proof.
  unfold step_thread. destruct (pc t) eqn:Hpc.
  - destruct (is_loading st); intros [= <- <-]; auto.
  - intros [= <- <-]. auto.
  - intros [= <- <-]. auto.
  - unfold try_except, handle.
    destruct (try_body (world t)) as [[d now]|e] eqn:Hbody.
    + intros [= <- <-]. split; [done|]. right. by exists now.
    + destruct (exn_class e); intros [= <- <-]; auto.
  - intros [= <- <-]. auto.
  - done.
  - done.
Qed.

Lemma worlds_grow (W W' : list World) : W ⊆ W ++ W'.
Proof. intros w Hw. apply elem_of_app. by left. Qed.

Lemma published_from_mono (W W' : list World) (sys : System) :
  W ⊆ W' -> published_from W sys -> published_from W' sys.
Proof.
  intros Hsub [Hdata Hth]. split.
  - destruct Hdata as [Hd|(w & now & Hw & Hbody)]; [by left|].
    right. exists w, now. split; [by apply Hsub | done].
  - eapply Forall_impl; [exact Hth|]. intros t Ht. by apply Hsub.
Qed.

Lemma step_published (W : list World) (i : nat) (sys sys' : System) :
  published_from W sys -> step i sys = Some sys' -> published_from W sys'.
Proof.
  intros [Hdata Hth]. unfold step.
  destruct (threads sys !! i) as [t|] eqn:Ht; [|done].
  destruct (step_thread t (globals sys)) as [[t' st']|] eqn:Hs; [|done].
  intros [= <-]. simpl.
  assert (world t ∈ W) as HtW.
  { by apply (proj1 (Forall_lookup _ _) Hth i t). }
  apply step_thread_published in Hs as [Hw Hd]. split; simpl.
  - destruct Hd as [->|[now Hbody]]; [done|].
    right. by exists (world t), now.
  - apply Forall_insert; [done|]. by rewrite Hw.
Qed.

Lemma spawn_published (W : list World) (sys : System) (w : World) :
  published_from W sys ->
  published_from (W ++ [w])
    {| globals := globals sys; threads := threads sys ++ [start w] |}.
Proof.
  intros Hinv.
  apply (published_from_mono W (W ++ [w])) in Hinv;
    [|apply worlds_grow].
  destruct Hinv as [Hdata Hth]. split; [done|]. simpl.
  apply Forall_app. split; [done|].
  apply Forall_singleton. simpl. apply elem_of_app. right.
  by apply list_elem_of_singleton.
Qed.

Lemma serve_published (K : option string) (W : list World) (ev : Event)
    (sys sys' : System) :
  published_from W sys -> serve K ev sys = Some sys' ->
  published_from (W ++ omap event_world [ev]) sys'.
Proof.
  intros Hinv. destruct ev as [i|w|x w]; simpl.
  - rewrite app_nil_r. by apply step_published.
  - intros [= <-]. by apply spawn_published.
  - intros [= <-]. unfold manual_refresh.
    destruct (verify_api_key K x);
      [|by apply (published_from_mono W); [apply worlds_grow|]].
    destruct (is_loading (globals sys)); simpl.
    + by apply (published_from_mono W); [apply worlds_grow|].
    + by apply spawn_published.
Qed.

Lemma history_published (K : option string) (evs : list Event)
    (W : list World) (sys sys' : System) :
  published_from W sys -> history K evs sys = Some sys' ->
  published_from (W ++ omap event_world evs) sys'.
Proof.
  revert W sys. induction evs as [|ev evs IH]; intros W sys Hinv; simpl.
  - intros [= <-]. by rewrite app_nil_r.
  - destruct (serve K ev sys) as [sys1|] eqn:Hserve; [|done].
    intros Hrest.
    pose proof (IH _ _ (serve_published K W ev sys sys1 Hinv Hserve) Hrest)
      as Hfinal.
    rewrite <- app_assoc in Hfinal.
    by rewrite <- (omap_app event_world [ev] evs) in Hfinal.
Qed.

Lemma process_start_published : published_from [] process_start.
Proof. split; [by left | by apply Forall_nil]. Qed.

End HistoryFacts.

(** X12.  The flag never stays up by itself.  In every history of the
    process, if the flag is set then some attempt is in mid-flight; so
    when none is, the flag is down and the next attempt passes the test of
    line 78.  (The [finally] clause resets the flag on every way out of the
    [try] block.) *)
Theorem flag_never_stuck (K : option string) (evs : list Event)
    (sys : System) :
  history K evs process_start = Some sys ->
  (is_loading (globals sys) = true ->
   exists j t, threads sys !! j = Some t /\ in_flight t = true)
  /\ (Forall (fun t => in_flight t = false) (threads sys) ->
      is_loading (globals sys) = false
      /\ forall w, step_thread (start w) (globals sys)
                   = Some (at_pc AtSetFlag (start w), globals sys)).
Proof.
  intros Hhist.
  pose proof (history_flag_backed K evs _ _ process_start_flag_backed Hhist)
    as Hinv.
  split; [exact Hinv|]. intros Hnone.
  assert (is_loading (globals sys) = false) as Hl.
  { destruct (is_loading (globals sys)) eqn:Hl; [|done].
    destruct (Hinv Hl) as (j & t & Hj & Hfl).
    pose proof (proj1 (Forall_lookup _ _) Hnone j t Hj) as Hno.
    simpl in Hno. congruence. }
  split; [exact Hl|]. intros w. unfold step_thread; simpl. by rewrite Hl.
Qed.

Lemma flag_never_stuck_witness :
  exists sys,
    history None [LoopTurn timeout_world; Statement 0; Statement 0;
                  Statement 0; Statement 0; Statement 0] process_start
    = Some sys
    /\ is_loading (globals sys) = false.
Proof.
  eexists. split; [reflexivity|].
  apply (flag_never_stuck None
           [LoopTurn timeout_world; Statement 0; Statement 0;
            Statement 0; Statement 0; Statement 0] _ eq_refl).
  repeat constructor.
Defined.

(** X13.  What [POST /refresh] answers, for a request with an accepted
    key at any point of a history.  It never touches the globals.  When no
    attempt is in mid-flight it starts a task and says so.  When it answers
    "Already refreshing" it starts nothing, and an attempt is indeed in
    mid-flight. *)
Theorem manual_refresh_answers (K x : option string) (evs : list Event)
    (sys : System) (w : World) :
  history K evs process_start = Some sys ->
  verify_api_key K x = Success tt ->
  globals (manual_refresh K sys w x).2 = globals sys
  /\ (Forall (fun t => in_flight t = false) (threads sys) ->
      manual_refresh K sys w x
      = (Success refresh_started,
         {| globals := globals sys; threads := threads sys ++ [start w] |}))
  /\ ((manual_refresh K sys w x).1 = Success already_refreshing ->
      (manual_refresh K sys w x).2 = sys
      /\ exists j t, threads sys !! j = Some t /\ in_flight t = true).
Proof.
  intros Hhist Hkey.
  pose proof (history_flag_backed K evs _ _ process_start_flag_backed Hhist)
    as Hinv.
  unfold manual_refresh. rewrite Hkey.
  destruct (is_loading (globals sys)) eqn:Hl; simpl.
  - split; [done|]. split.
    + intros Hnone. destruct (Hinv Hl) as (j & t & Hj & Hfl).
      pose proof (proj1 (Forall_lookup _ _) Hnone j t Hj) as Hno.
      simpl in Hno. congruence.
    + intros _. split; [done|]. by apply Hinv.
  - split; [done|]. split; [done|]. by intros [=].
Qed.

Lemma manual_refresh_answers_witness :
  exists sys,
    history None [PostRefresh None sample_world; Statement 0; Statement 0]
      process_start = Some sys
    /\ verify_api_key None None = Success tt
    /\ (manual_refresh None sys timeout_world None).1
       = Success already_refreshing
    /\ globals (manual_refresh None sys timeout_world None).2 = globals sys.
Proof.
  eexists. split; [reflexivity|]. split; [reflexivity|].
  split; [reflexivity|].
  apply (manual_refresh_answers None None
           [PostRefresh None sample_world; Statement 0; Statement 0]
           _ timeout_world eq_refl eq_refl).
Defined.

(** X14.  What is published is whole.  In every history of the process,
    however the attempts interleave, the dictionary is either the empty one
    the module starts with or the complete result of one attempt that was
    started; if every attempt started fails, it stays empty. *)
Theorem published_is_whole (K : option string) (evs : list Event)
    (sys : System) :
  history K evs process_start = Some sys ->
  (sanctioned_data (globals sys) = ∅
   \/ exists w now,
        w ∈ omap event_world evs
        /\ try_body w = Ok (sanctioned_data (globals sys), now))
  /\ ((forall w, w ∈ omap event_world evs -> fails w = true) ->
      sanctioned_data (globals sys) = ∅).
Proof.
  intros Hhist.
  destruct (history_published K evs [] _ _ process_start_published Hhist)
    as [Hdata _].
  rewrite app_nil_l in Hdata. split; [exact Hdata|].
  intros Hfail. destruct Hdata as [Hd|(w & now & Hw & Hbody)]; [done|].
  specialize (Hfail w Hw). unfold fails in Hfail. by rewrite Hbody in Hfail.
Qed.

Lemma published_is_whole_witness :
  exists sys,
    history None [LoopTurn sample_world; PostRefresh None timeout_world;
                  Statement 0; Statement 1; Statement 0; Statement 1;
                  Statement 1; Statement 1; Statement 0; Statement 0;
                  Statement 1; Statement 0] process_start = Some sys
    /\ (sanctioned_data (globals sys) = ∅
        \/ exists w now,
             w ∈ [sample_world; timeout_world]
             /\ try_body w = Ok (sanctioned_data (globals sys), now)).
Proof.
  eexists. split; [reflexivity|].
  apply (published_is_whole None
           [LoopTurn sample_world; PostRefresh None timeout_world;
            Statement 0; Statement 1; Statement 0; Statement 1;
            Statement 1; Statement 1; Statement 0; Statement 0;
            Statement 1; Statement 0] _ eq_refl).
Defined.

(** ** Namespaces *)

Section NamespaceFacts.

Lemma after_first_none (c : ascii) (s : string) :
  has_char c s = false -> after_first c s = None.
Proof.
  induction s as [|a s IH]; [done|]. simpl.
  intros [Ha Hs]%orb_false_iff. rewrite Ha. auto.
Qed.

Lemma after_first_app (c : ascii) (pre post : string) :
  has_char c pre = false ->
  after_first c (pre +:+ String c post) = Some post.
Proof.
  induction pre as [|a pre IH]; simpl.
  - intros _. rewrite ?append_nil_l. simpl. by rewrite Ascii.eqb_refl.
  - intros [Ha Hpre]%orb_false_iff. rewrite ?append_cons. simpl.
    rewrite Ha. auto.
Qed.

Lemma strip_ns_clark (ns local : string) :
  has_char "}" ns = false -> strip_ns (clark ns local) = local.
Proof.
  intros Hns. unfold strip_ns, clark.
  change ("{" +:+ ns +:+ "}" +:+ local)
    with (String "{" ns +:+ String "}" local).
  by rewrite (after_first_app "}" (String "{" ns) local).
Qed.

Lemma strip_qualify (ns : string) :
  has_char "}" ns = false ->
  forall e, strip_namespaces (qualify ns e) = e.
Proof.
  intros Hns. fix IH 1. intros [t x cs]. simpl.
  rewrite (strip_ns_clark ns t Hns). f_equal.
  induction cs as [|c cs IHcs]; simpl; [done|].
  by rewrite IH, IHcs.
Qed.

End NamespaceFacts.

(** X15.  A tag is cut just after its first closing brace, and a tag
    without one is left alone.  What follows the first brace is kept as it
    is, further braces included. *)
Theorem strip_ns_after_first_brace (pre post : string) :
  has_char "}" pre = false ->
  strip_ns (pre +:+ "}" +:+ post) = post /\ strip_ns pre = pre.
Proof.
  intros Hpre. unfold strip_ns. split.
  - change ("}" +:+ post) with (String "}" post).
    by rewrite (after_first_app "}" pre post Hpre).
  - by rewrite (after_first_none "}" pre Hpre).
Qed.

Lemma strip_ns_after_first_brace_witness :
  has_char "}" "{urn:x" = false
  /\ strip_ns ("{urn:x" +:+ "}" +:+ "a}b") = "a}b"
  /\ strip_ns "{urn:x" = "{urn:x".
Proof.
  split; [reflexivity|].
  apply (strip_ns_after_first_brace "{urn:x" "a}b"). reflexivity.
Defined.

(** X16.  The parser does not care about the namespace.  Putting every
    tag of a document in a namespace (whose name has no closing brace) and
    stripping the namespaces gives the document back, so the dictionary
    built is the same whatever the namespace. *)
Theorem parse_namespace_agnostic (ns ns' : string) (e : Element) :
  has_char "}" ns = false ->
  has_char "}" ns' = false ->
  strip_namespaces (qualify ns e) = e
  /\ parse_entries (strip_namespaces (qualify ns e))
     = parse_entries (strip_namespaces (qualify ns' e)).
Proof.
  intros Hns Hns'. split; [by apply strip_qualify|].
  by rewrite !strip_qualify.
Qed.

Lemma parse_namespace_agnostic_witness :
  has_char "}" "http://tempuri.org/sdnList.xsd" = false
  /\ has_char "}" "urn:ofac:v2" = false
  /\ parse_entries
       (strip_namespaces
          (qualify "http://tempuri.org/sdnList.xsd"
             (strip_namespaces sample_tree)))
     = parse_entries
         (strip_namespaces
            (qualify "urn:ofac:v2" (strip_namespaces sample_tree))).
Proof.
  split; [reflexivity|]. split; [reflexivity|].
  apply (parse_namespace_agnostic "http://tempuri.org/sdnList.xsd"
           "urn:ofac:v2" (strip_namespaces sample_tree)); reflexivity.
Defined.

(** ** Calls that do not overlap *)

Section SequentialFacts.

Lemma step_last_thread (st : State) (ths : list Thread) (t : Thread) :
  step (List.length ths) {| globals := st; threads := ths ++ [t] |} =
  match step_thread t st with
  | Some (t', st') => Some {| globals := st'; threads := ths ++ [t'] |}
  | None => None
  end.
Proof.
  unfold step; simpl. rewrite list_lookup_middle by done.
  destruct (step_thread t st) as [[t' st']|]; [|done].
  rewrite insert_app_r_alt by done. by rewrite Nat.sub_diag.
Qed.

(** A call that runs its five statements without interference leaves the
    globals that the routine computes. *)
Lemma turn_alone (K : option string) (w : World) (sys : System) :
  is_loading (globals sys) = false ->
  exists t,
    history K (LoopTurn w :: replicate 5 (Statement (List.length (threads sys))))
      sys
    = Some {| globals := (download_and_parse_ofac w (globals sys)).1;
              threads := threads sys ++ [t] |}.
Proof.
  intros Hl. destruct sys as [st ths]. cbn [globals threads] in *.
  unfold download_and_parse_ofac. rewrite Hl.
  destruct (try_except w (set_error None (set_loading true st)))
    as [st' c] eqn:Htry.
  exists (at_pc (Finished c) (start w)).
  cbn [history serve replicate globals threads].
  rewrite step_last_thread. unfold step_thread at 1; simpl. rewrite Hl.
  rewrite step_last_thread. unfold step_thread at 1; simpl.
  rewrite step_last_thread. unfold step_thread at 1; simpl.
  rewrite step_last_thread. unfold step_thread at 1; simpl. rewrite Htry.
  rewrite step_last_thread. unfold step_thread at 1; simpl.
  done.
Qed.

Lemma history_app (K : option string) (evs evs' : list Event) (sys : System) :
  history K (evs ++ evs') sys =
  match history K evs sys with
  | Some sys' => history K evs' sys'
  | None => None
  end.
Proof.
  revert sys. induction evs as [|ev evs IH]; intros sys; [done|].
  simpl. destruct (serve K ev sys); [apply IH | done].
Qed.

End SequentialFacts.

(** X17.  Calls that do not overlap behave as calls made one after the
    other: when every call of the routine has executed its statements
    before the next one starts, the globals at the end are those of
    [run_attempts], the routine applied as a function to each world in
    turn. *)
Theorem turns_in_a_row_sequential (K : option string) (ws : list World)
    (sys : System) :
  is_loading (globals sys) = false ->
  exists sys',
    history K (turns_in_a_row (List.length (threads sys)) ws) sys = Some sys'
    /\ globals sys' = run_attempts ws (globals sys)
    /\ List.length (threads sys') = List.length (threads sys) + List.length ws.
Proof.
  revert sys. induction ws as [|w ws IH]; intros sys Hl.
  - exists sys. simpl. split; [done|]. split; [done | lia].
  - destruct (turn_alone K w sys Hl) as [t Hturn].
    change (turns_in_a_row (List.length (threads sys)) (w :: ws))
      with ((LoopTurn w :: replicate 5 (Statement (List.length (threads sys))))
            ++ turns_in_a_row (S (List.length (threads sys))) ws).
    rewrite history_app, Hturn.
    destruct (IH {| globals := (download_and_parse_ofac w (globals sys)).1;
                    threads := threads sys ++ [t] |}) as (sys' & Hh & Hg & Hn).
    { simpl. by rewrite refresh_resets_flag. }
    simpl in Hh, Hg, Hn. rewrite length_app in Hh, Hn. simpl in Hh, Hn.
    replace (List.length (threads sys) + 1) with (S (List.length (threads sys)))
      in Hh by lia.
    exists sys'. split; [exact Hh|]. split; [exact Hg|]. simpl. lia.
Qed.

Lemma turns_in_a_row_sequential_witness :
  is_loading (globals process_start) = false
  /\ exists sys',
       history None
         (turns_in_a_row 0 [timeout_world; sample_world; garbled_world])
         process_start = Some sys'
       /\ globals sys'
          = run_attempts [timeout_world; sample_world; garbled_world]
              initial_state.
Proof.
  split; [reflexivity|].
  destruct (turns_in_a_row_sequential None
              [timeout_world; sample_world; garbled_world] process_start
              eq_refl) as (sys' & Hh & Hg & _).
  exists sys'. split; [exact Hh | exact Hg].
Defined.

(** ** The recorded error *)

(** X18.  The error that [/status] shows is that of the latest attempt
    only.  After an attempt that got past the gate and let no exception
    through, [load_error] is empty exactly when the attempt succeeded; an
    error recorded by an earlier attempt does not survive, and the status
    reply carries the same value. *)
Theorem status_error_is_latest (K x : option string) (w : World)
    (st : State) :
  is_loading st = false ->
  (forall e, try_body w = Raise e -> exn_class e <> NonException) ->
  verify_api_key K x = Success tt ->
  (load_error (download_and_parse_ofac w st).1 = None <-> fails w = false)
  /\ download_and_parse_ofac w st
     = download_and_parse_ofac w (set_error None st)
  /\ exists s, status K (download_and_parse_ofac w st).1 x = Success s
               /\ error s = load_error (download_and_parse_ofac w st).1
               /\ status_text s <> "loading".
Proof.
  intros Hl Hcls Hkey. split; [|split].
  - unfold download_and_parse_ofac, try_except, fails. rewrite Hl.
    destruct (try_body w) as [[d now]|e] eqn:Hbody; [done|].
    destruct (handle_records e (set_error None (set_loading true st))
                (Hcls e eq_refl)) as (msg & -> & _).
    done.
  - unfold download_and_parse_ofac. simpl. by rewrite Hl.
  - unfold status. rewrite Hkey. eexists. split; [reflexivity|]. simpl.
    split; [done|]. rewrite refresh_resets_flag, Hl.
    by destruct (negb _).
Qed.

Lemma status_error_is_latest_witness :
  is_loading (set_error (Some "XML parse error: unclosed token: line 1, column 0")
                one_entry_state) = false
  /\ verify_api_key None None = Success tt
  /\ load_error
       (download_and_parse_ofac sample_world
          (set_error (Some "XML parse error: unclosed token: line 1, column 0")
             one_entry_state)).1 = None.
Proof.
  split; [reflexivity|]. split; [reflexivity|].
  apply (status_error_is_latest None None sample_world
           (set_error (Some "XML parse error: unclosed token: line 1, column 0")
              one_entry_state)); try reflexivity.
  intros e [= <-].
Defined.

(** ** Entries at any depth *)

Section IterFacts.

Lemma iter_self (e : Element) : In e (iter e).
Proof. destruct e. by left. Qed.

Lemma iter_child (e c x : Element) :
  In c (children e) -> In x (iter c) -> In x (iter e).
Proof.
  destruct e as [t txt cs]. simpl. intros Hc Hx. right.
  induction cs as [|c0 cs IH]; [done|].
  apply in_or_app. destruct Hc as [->|Hc]; [by left|]. right. by apply IH.
Qed.

Lemma extract_iter (root entry : Element) (t : Triple) :
  In entry (iter root) -> tag entry = "sdnEntry" ->
  In t (entry_triples entry) -> t ∈ extract root.
Proof.
  intros Hin Htag Ht. unfold extract, iter_tag.
  apply list_elem_of_In, in_concat. exists (entry_triples entry).
  split; [|done]. apply in_map, filter_In. split; [done|].
  by apply String.eqb_eq.
Qed.

Lemma extract_inv (root : Element) (t : Triple) :
  t ∈ extract root ->
  exists entry, In entry (iter root) /\ tag entry = "sdnEntry"
                /\ In t (entry_triples entry).
Proof.
  unfold extract, iter_tag. rewrite list_elem_of_In, in_concat.
  intros (ts & Hts & Ht). apply in_map_iff in Hts as (entry & <- & Hentry).
  apply filter_In in Hentry as [Hin Htag]. exists entry.
  split; [done|]. split; [by apply String.eqb_eq | done].
Qed.

End IterFacts.

(** X19.  Entries are read at any depth.  Whatever is extracted from an
    element is extracted from its parent too, so an [sdnEntry] contributes
    its identifiers wherever it sits in the document, under other elements
    or inside another entry; and the root itself is read as an entry when
    its tag is [sdnEntry]. *)
Theorem extract_any_depth (parent child : Element) (t : Triple) :
  In child (children parent) ->
  t ∈ extract child ->
  t ∈ extract parent
  /\ (tag child = "sdnEntry" ->
      forall u, In u (entry_triples child) -> u ∈ extract parent).
Proof.
  intros Hchild Ht. split.
  - apply extract_inv in Ht as (entry & Hin & Htag & Hentry).
    apply (extract_iter parent entry); [|done|done].
    by apply (iter_child parent child).
  - intros Htag u Hu. apply (extract_iter parent child); [|done|done].
    apply (iter_child parent child); [done|]. apply iter_self.
Qed.

Lemma extract_any_depth_witness :
  In (Elem "publshInformation" None [strip_namespaces sample_tree])
     (children (Elem "wrapper" None
                  [Elem "publshInformation" None
                     [strip_namespaces sample_tree]]))
  /\ (" 1A2b ", "Jo Doe", "Digital Currency Address - XBT")
       ∈ extract (Elem "wrapper" None
                    [Elem "publshInformation" None
                       [strip_namespaces sample_tree]]).
Proof.
  split; [by left|].
  refine (proj1 (extract_any_depth
           (Elem "wrapper" None
              [Elem "publshInformation" None [strip_namespaces sample_tree]])
           (Elem "publshInformation" None [strip_namespaces sample_tree])
           (" 1A2b ", "Jo Doe", "Digital Currency Address - XBT") _ _)).
  - by left.
  - apply list_elem_of_In. by left.
Defined.

(* ===================================================================== *)
(** * Building, extraction, lookup and the gate                           *)
(* ===================================================================== *)

(** ** What [strip] removes *)

Section TrimFacts.

Lemma lstrip_starts (m : string) : starts_nonspace m = true -> lstrip m = m.
Proof.
  destruct m as [|c m]; [done|]. simpl.
  intros Hc%negb_true_iff. by rewrite Hc.
Qed.

Lemma rstrip_ends (m : string) : ends_nonspace m = true -> rstrip m = m.
Proof.
  induction m as [|c m IH]; [done|].
  destruct m as [|d m].
  - simpl. intros Hc%negb_true_iff. by rewrite Hc.
  - intros Hm.
    change (rstrip (String c (String d m))) with
      (match rstrip (String d m) with
       | "" => if isspace c then "" else String c ""
       | String a u => String c (String a u)
       end).
    by rewrite (IH Hm).
Qed.

(** [strip] returns the core of a string: what stands between the
    whitespace at its two ends. *)
Lemma strip_core (l m r : string) :
  all_space l = true -> all_space r = true ->
  starts_nonspace m = true -> ends_nonspace m = true ->
  strip (l +:+ m +:+ r) = m.
Proof.
  intros Hl Hr Hs He. rewrite strip_pad by done.
  unfold strip. by rewrite lstrip_starts, rstrip_ends.
Qed.

Lemma lstrip_blank (s : string) : lstrip s = "" -> all_space s = true.
Proof.
  induction s as [|c s IH]; [done|]. simpl.
  destruct (isspace c); [exact IH | done].
Qed.

(** A string has something left after [strip] exactly when it is not
    blank. *)
Lemma strip_blank_iff (s : string) :
  truthy (strip s) = true <-> all_space s = false.
Proof.
  split.
  - intros Ht. destruct (all_space s) eqn:Hs; [|done].
    by rewrite (strip_all_space s Hs) in Ht.
  - intros Hs. unfold strip.
    destruct (lstrip_head s) as [Hl|(c & t & Hl & Hc)].
    + apply lstrip_blank in Hl. congruence.
    + rewrite Hl. by rewrite (rstrip_cons_nonspace c t Hc).
Qed.

End TrimFacts.

(** C3.  The dictionary that the loop builds is [build] of the extracted
    triples.  Under every key it holds the record of the last triple, in
    encounter order, whose address trims and lower-cases to that key.  The
    key of a triple is the core of its address, without the whitespace at
    either end, in lower case: a triple whose address is that core wrapped
    in whitespace is found under the lower-cased core.  Two triples whose
    addresses differ in case, or in case and surrounding whitespace, leave
    one entry, with the entity of the second. *)
Theorem build_last_wins :
  (forall root, parse_entries root = build (extract root))
  /\ (forall (ts : list Triple) (k : string),
        build ts !! k =
        triple_record <$> last (filter (fun t => lower (strip t.1.1) = k) ts))
  /\ (forall (ts : list Triple) (l m r e c : string),
        all_space l = true -> all_space r = true ->
        starts_nonspace m = true -> ends_nonspace m = true ->
        build (ts ++ [(l +:+ m +:+ r, e, c)]) !! lower m
        = Some {| entity := e; currency_type := strip c |})
  /\ build [("1A2b...", "Org X", "Digital Currency Address - XBT");
            ("1a2B...", "Org Y", "Digital Currency Address - XBT")]
     = {[ "1a2b..." := {| entity := "Org Y";
                          currency_type := "Digital Currency Address - XBT" |} ]}
  /\ size (build [("1A2b...", "Org X", "Digital Currency Address - XBT");
                  ("1a2B...", "Org Y", "Digital Currency Address - XBT")]) = 1
  /\ build [("  1A2b... ", "Org X", "Digital Currency Address - XBT");
            (" 1a2B...", "Org Y", " Digital Currency Address - XBT ")]
     = {[ "1a2b..." := {| entity := "Org Y";
                          currency_type := "Digital Currency Address - XBT" |} ]}.
Proof.
  split; [exact parse_entries_build|].
  split; [exact build_lookup|].
  split.
  { intros ts l m r e c Hl Hr Hs He.
    rewrite build_snoc. unfold store, triple_key, triple_record, normalize.
    simpl. rewrite (strip_core l m r Hl Hr Hs He).
    apply lookup_insert_eq. }
  assert (build [("1A2b...", "Org X", "Digital Currency Address - XBT");
                 ("1a2B...", "Org Y", "Digital Currency Address - XBT")]
          = {[ "1a2b..." := {| entity := "Org Y";
                 currency_type := "Digital Currency Address - XBT" |} ]}) as ->.
  { unfold build, store; simpl.
    change (triple_key ("1A2b...", "Org X", "Digital Currency Address - XBT"))
      with "1a2b...".
    change (triple_key ("1a2B...", "Org Y", "Digital Currency Address - XBT"))
      with "1a2b...".
    rewrite insert_insert_eq. apply insert_empty. }
  split; [reflexivity|]. split; [apply map_size_singleton|].
  unfold build, store; simpl.
  change (triple_key ("  1A2b... ", "Org X", "Digital Currency Address - XBT"))
    with "1a2b...".
  change (triple_key (" 1a2B...", "Org Y", " Digital Currency Address - XBT "))
    with "1a2b...".
  change (triple_record (" 1a2B...", "Org Y", " Digital Currency Address - XBT "))
    with {| entity := "Org Y";
            currency_type := "Digital Currency Address - XBT" |}.
  rewrite insert_insert_eq. apply insert_empty.
Qed.

(** C6.  [check_wallet] looks an address up under the key that the loop
    files it under: trimmed, then lower-cased.  For an address [s] wrapped
    in whitespace and an address [t] with the same letters up to case:
    both have the same key; an address filed as [t] is found under the key
    of the wrapped [s]; the two calls give the same answer; a successful
    reply for the wrapped [s] echoes the trimmed input and carries what the
    dictionary holds under the key of [t]; and on a dictionary in which [t]
    was filed last, the call for the wrapped [s] reports the address as
    sanctioned, with the record filed. *)
Theorem check_normalizes_like_index (K x : option string) (st : State)
    (l s r t : string) :
  all_space l = true ->
  all_space r = true ->
  lower s = lower t ->
  normalize (l +:+ s +:+ r) = normalize t
  /\ (forall d e c,
        store d (t, e, c) !! normalize (l +:+ s +:+ r)
        = Some {| entity := e; currency_type := strip c |})
  /\ answer (check_wallet K st (l +:+ s +:+ r) x)
     = answer (check_wallet K st t x)
  /\ (forall resp,
        check_wallet K st (l +:+ s +:+ r) x = Success resp ->
        address resp = strip s
        /\ match_ resp = sanctioned_data st !! lower (strip t)
        /\ (is_sanctioned resp = true <->
            is_Some (sanctioned_data st !! lower (strip t))))
  /\ (forall d e c,
        verify_api_key K x = Success tt ->
        all_space s = false ->
        sanctioned_data st = store d (t, e, c) ->
        exists resp,
          check_wallet K st (l +:+ s +:+ r) x = Success resp
          /\ is_sanctioned resp = true
          /\ match_ resp = Some {| entity := e; currency_type := strip c |}).
Proof.
  intros Hl Hr Hst.
  assert (normalize (l +:+ s +:+ r) = normalize t) as Hn.
  { unfold normalize. rewrite strip_pad by done.
    by rewrite !lower_strip, Hst. }
  assert (forall d e c,
            store d (t, e, c) !! normalize (l +:+ s +:+ r)
            = Some {| entity := e; currency_type := strip c |}) as Hstore.
  { intros d e c. unfold store, triple_key; simpl. rewrite Hn.
    apply lookup_insert_eq. }
  assert (truthy (strip (l +:+ s +:+ r)) = truthy (strip t)) as Htr.
  { rewrite <- (truthy_lower (strip (l +:+ s +:+ r))).
    rewrite <- (truthy_lower (strip t)). by f_equal. }
  split; [exact Hn|]. split; [exact Hstore|]. split; [|split].
  - unfold check_wallet. destruct (verify_api_key K x); [|done].
    rewrite Htr. destruct (truthy (strip t)); [|done]. simpl.
    destruct (dict_empty _); [done|]. simpl.
    fold (normalize (l +:+ s +:+ r)). fold (normalize t). by rewrite Hn.
  - intros resp. unfold check_wallet.
    destruct (verify_api_key K x); [|done].
    destruct (truthy (strip (l +:+ s +:+ r))); [|done]. simpl.
    destruct (dict_empty _); [done|]. intros [= <-]. simpl.
    fold (normalize (l +:+ s +:+ r)). fold (normalize t). rewrite Hn.
    split; [by apply strip_pad|]. split; [done|].
    destruct (sanctioned_data st !! normalize t) as [rec|].
    + split; [intros _; by eexists | done].
    + split; [done | by intros [? ?]].
  - intros d e c Hkey Hs Hdata.
    assert (truthy (strip (l +:+ s +:+ r)) = true) as Ha.
    { rewrite strip_pad by done. by apply strip_blank_iff. }
    assert (dict_empty (sanctioned_data st) = false) as Hd.
    { apply dict_empty_false. rewrite Hdata. unfold store.
      apply insert_non_empty. }
    rewrite (check_wallet_ready K x st _ Hkey Ha Hd).
    eexists. split; [reflexivity|]. simpl.
    by rewrite Hdata, Hstore.
Qed.

Lemma check_normalizes_like_index_witness :
  all_space " " = true
  /\ lower "AbC" = lower "abc"
  /\ answer (check_wallet None one_entry_state " AbC " None)
     = answer (check_wallet None one_entry_state "abc" None)
  /\ exists resp,
       check_wallet None one_entry_state " AbC " None = Success resp
       /\ is_sanctioned resp = true
       /\ match_ resp
          = Some {| entity := "Org";
                    currency_type := "Digital Currency Address - XBT" |}.
Proof.
  split; [reflexivity|]. split; [reflexivity|].
  destruct (check_normalizes_like_index None None one_entry_state
              " " "AbC" " " "abc" eq_refl eq_refl eq_refl)
    as (_ & _ & Hsame & _ & Hfound).
  split; [exact Hsame|].
  apply (Hfound ∅ "Org" "Digital Currency Address - XBT"); reflexivity.
Defined.

(** ** Reading an identifier record *)

Section ReadingFacts.






End ReadingFacts.


(** ** The gate outside its window *)

Section WindowFacts.

Lemma in_flight_busy (t : Thread) : in_flight t = true -> busy t = true.
Proof. unfold busy. intros ->. apply orb_true_r. Qed.

Lemma at_check_idle (t : Thread) : pc t = AtCheck -> busy t = false.
Proof. unfold busy, in_window, in_flight. by intros ->. Qed.

(** What one statement does to the thread that executes it and to the
    flag: it is the test of line 78, or a statement between the test and
    the [finally] clause, or the [finally] clause. *)
Lemma step_thread_cases (t t' : Thread) (st st' : State) :
  step_thread t st = Some (t', st') ->
  (pc t = AtCheck /\ st' = st /\ in_flight t' = false
   /\ (in_window t' = true -> is_loading st = false))
  \/ (busy t = true /\ in_flight t' = true
      /\ (is_loading st' = true
          \/ (in_flight t = true /\ is_loading st' = is_loading st)))
  \/ (busy t = true /\ busy t' = false /\ is_loading st' = false).
Proof.
  unfold step_thread, busy, in_window, in_flight. destruct (pc t) eqn:Hpc.
  - destruct (is_loading st) eqn:Hl; intros [= <- <-]; left; simpl; auto.
  - intros [= <- <-]. right; left. simpl. auto.
  - intros [= <- <-]. right; left. simpl. auto.
  - pose proof (try_except_flag (world t) st) as Hflag.
    destruct (try_except (world t) st) as [st1 c]. simpl in Hflag.
    intros [= <- <-]. right; left. simpl. auto.
  - intros [= <- <-]. right; right. simpl. auto.
  - done.
  - done.
Qed.

Lemma none_in_window (ths : list Thread) (a : nat) (t : Thread) :
  existsb in_window ths = false -> ths !! a = Some t -> in_window t = false.
Proof.
  intros Hnone Ha. destruct (in_window t) eqn:Hw; [|done].
  assert (existsb in_window ths = true) as Hsome; [|congruence].
  apply existsb_exists. exists t. split; [|done].
  by apply list_elem_of_In, (list_elem_of_lookup_2 _ a).
Qed.

Lemma step_one_at_a_time (i : nat) (sys sys' : System) :
  one_at_a_time sys ->
  tests_in_window (Statement i) sys = false ->
  step i sys = Some sys' ->
  one_at_a_time sys'.
Proof.
  intros [Hone Hflag] Hfree. unfold step. simpl in Hfree.
  destruct (threads sys !! i) as [t|] eqn:Ht; [|done].
  destruct (step_thread t (globals sys)) as [[t' st']|] eqn:Hs; [|done].
  intros [= <-]. unfold one_at_a_time. simpl.
  assert (i < List.length (threads sys)) as Hlen
    by by apply (lookup_lt_Some _ _ t).
  destruct (step_thread_cases _ _ _ _ Hs)
    as [(Hpc & -> & Hfl' & Hwin)|[(Hbusy & Hfl' & Hup)|(Hbusy & Hidle & Hdown)]].
  - (* the test of line 78 *)
    rewrite Hpc in Hfree. pose proof (at_check_idle t Hpc) as Hidle.
    assert (busy t' = true ->
            forall a ta, threads sys !! a = Some ta -> busy ta = false)
      as Hnobody.
    { unfold busy at 1. rewrite Hfl', orb_false_r. intros Hw a ta Ha.
      unfold busy. rewrite (none_in_window _ a ta Hfree Ha). simpl.
      destruct (in_flight ta) eqn:Hfa; [|done].
      assert (is_loading (globals sys) = true) as Hl
        by (apply Hflag; by exists a, ta).
      rewrite (Hwin Hw) in Hl. done. }
    split.
    + intros a b ta tb Ha Hb Hba Hbb.
      apply list_lookup_insert_Some in Ha as [(<- & <- & _)|[Hai Ha]];
        apply list_lookup_insert_Some in Hb as [(<- & <- & _)|[Hbi Hb]].
      * done.
      * rewrite (Hnobody Hba b tb Hb) in Hbb. done.
      * rewrite (Hnobody Hbb a ta Ha) in Hba. done.
      * by apply (Hone a b ta tb).
    + rewrite Hflag. split.
      * intros (a & ta & Ha & Hfa). exists a, ta. split; [|done].
        rewrite list_lookup_insert_ne; [done|]. intros ->.
        rewrite Ht in Ha. injection Ha as <-.
        apply in_flight_busy in Hfa. congruence.
      * intros (a & ta & Ha & Hfa).
        apply list_lookup_insert_Some in Ha as [(<- & <- & _)|[Hai Ha]];
          [congruence|]. by exists a, ta.
  - (* a statement between the test and the [finally] clause *)
    assert (forall a ta, <[i:=t']> (threads sys) !! a = Some ta ->
                         busy ta = true -> a = i) as Honly.
    { intros a ta Ha Hba.
      apply list_lookup_insert_Some in Ha as [(<- & _)|[Hai Ha]]; [done|].
      by apply (Hone a i ta t). }
    split.
    + intros a b ta tb Ha Hb Hba Hbb.
      rewrite (Honly a ta Ha Hba). by rewrite (Honly b tb Hb Hbb).
    + split.
      * intros _. exists i, t'. split; [|done].
        by apply list_lookup_insert_eq.
      * intros _. destruct Hup as [Hup|[Hfl Hsame]]; [done|].
        rewrite Hsame. apply Hflag. by exists i, t.
  - (* the [finally] clause *)
    split.
    + intros a b ta tb Ha Hb Hba Hbb.
      apply list_lookup_insert_Some in Ha as [(<- & <- & _)|[Hai Ha]];
        [congruence|].
      apply list_lookup_insert_Some in Hb as [(<- & <- & _)|[Hbi Hb]];
        [congruence|].
      by apply (Hone a b ta tb).
    + rewrite Hdown. split; [done|]. intros (a & ta & Ha & Hfa).
      apply in_flight_busy in Hfa.
      apply list_lookup_insert_Some in Ha as [(<- & <- & _)|[Hai Ha]];
        [congruence|].
      destruct Hai. symmetry. by apply (Hone a i ta t).
Qed.

Lemma spawn_one_at_a_time (sys : System) (w : World) :
  one_at_a_time sys ->
  one_at_a_time
    {| globals := globals sys; threads := threads sys ++ [start w] |}.
Proof.
  intros [Hone Hflag]. split; simpl.
  - intros a b ta tb Ha Hb Hba Hbb.
    apply lookup_snoc_Some in Ha as [[_ Ha]|[_ <-]]; [|done].
    apply lookup_snoc_Some in Hb as [[_ Hb]|[_ <-]]; [|done].
    by apply (Hone a b ta tb).
  - rewrite Hflag. split.
    + intros (a & ta & Ha & Hfa). exists a, ta. split; [|done].
      by apply lookup_app_l_Some.
    + intros (a & ta & Ha & Hfa).
      apply lookup_snoc_Some in Ha as [[_ Ha]|[_ <-]]; [|done].
      by exists a, ta.
Qed.

Lemma serve_one_at_a_time (K : option string) (ev : Event)
    (sys sys' : System) :
  one_at_a_time sys ->
  tests_in_window ev sys = false ->
  serve K ev sys = Some sys' ->
  one_at_a_time sys'.
Proof.
  intros Hinv Hfree. destruct ev as [i|w|x w]; simpl.
  - by apply step_one_at_a_time.
  - intros [= <-]. by apply spawn_one_at_a_time.
  - intros [= <-]. unfold manual_refresh.
    destruct (verify_api_key K x); [|done].
    destruct (is_loading (globals sys)); [done|].
    by apply spawn_one_at_a_time.
Qed.

Lemma history_one_at_a_time (K : option string) (evs : list Event)
    (sys sys' : System) :
  one_at_a_time sys ->
  window_free K evs sys = true ->
  history K evs sys = Some sys' ->
  one_at_a_time sys'.
Proof.
  revert sys. induction evs as [|ev evs IH]; intros sys Hinv; simpl.
  - by intros _ [= <-].
  - intros [Hfree Hrest]%andb_true_iff. apply negb_true_iff in Hfree.
    destruct (serve K ev sys) as [sys1|] eqn:Hserve; [|done].
    apply IH; [|done]. by apply (serve_one_at_a_time K ev sys).
Qed.

Lemma boot_one_at_a_time (ws : list World) : one_at_a_time (boot ws).
Proof.
  assert (forall a ta, List.map start ws !! a = Some ta -> busy ta = false)
    as Hidle.
  { intros a ta Ha. apply list_elem_of_lookup_2, list_elem_of_In in Ha.
    by apply in_map_iff in Ha as (w & <- & _). }
  split; simpl.
  - intros a b ta tb Ha _ Hba _. by rewrite (Hidle a ta Ha) in Hba.
  - split; [done|]. intros (a & ta & Ha & Hfa).
    apply in_flight_busy in Hfa. by rewrite (Hidle a ta Ha) in Hfa.
Qed.

Lemma unique_filter_length (P : Thread -> bool) (ths : list Thread) :
  (forall a b x y, ths !! a = Some x -> ths !! b = Some y ->
                   P x = true -> P y = true -> a = b) ->
  List.length (List.filter P ths) <= 1.
Proof.
  induction ths as [|x ths IH]; intros Huniq; simpl; [lia|].
  destruct (P x) eqn:Hx.
  - destruct (List.filter P ths) as [|y ys] eqn:Hfilter; [simpl; lia|].
    assert (In y (List.filter P ths)) as Hy by (rewrite Hfilter; by left).
    apply filter_In in Hy as [Hy HPy].
    apply list_elem_of_In, list_elem_of_lookup_1 in Hy as [k Hk].
    by specialize (Huniq 0 (S k) x y eq_refl Hk Hx HPy).
  - apply IH. intros a b u v Ha Hb Hu Hv.
    by specialize (Huniq (S a) (S b) u v Ha Hb Hu Hv) as [= ->].
Qed.

(** The race of two attempts is a test made in the window. *)
Example race_tests_in_window :
  window_free None [Statement 0; Statement 1; Statement 0; Statement 1]
    (boot [timeout_world; empty_list_world]) = false.
Proof. reflexivity. Qed.

End WindowFacts.

(** C1, amended.  The gate is single-flight outside its window.  Take any
    number of attempts, started at boot, by the loop or by [POST /refresh],
    and any history in which no attempt makes the test of line 78 while
    another stands between its own test and its setting of the flag (lines
    78-82).  Then at every moment at most one attempt is in mid-flight, and
    an attempt that comes to the test while another is in mid-flight finds
    the flag set and is turned away, leaving the globals as they are. *)
Theorem gate_single_flight_outside_window (K : option string)
    (ws : list World) (evs : list Event) (sys : System) :
  history K evs (boot ws) = Some sys ->
  window_free K evs (boot ws) = true ->
  List.length (List.filter in_flight (threads sys)) <= 1
  /\ forall i j ti tj,
       threads sys !! i = Some ti ->
       threads sys !! j = Some tj ->
       in_flight ti = true ->
       pc tj = AtCheck ->
       is_loading (globals sys) = true
       /\ step j sys
          = Some {| globals := globals sys;
                    threads := <[j := at_pc Skipped tj]> (threads sys) |}
       /\ declined (at_pc Skipped tj) = true.
Proof.
  intros Hhist Hfree.
  destruct (history_one_at_a_time K evs _ _ (boot_one_at_a_time ws)
              Hfree Hhist) as [Hone Hflag].
  split.
  - apply unique_filter_length. intros a b x y Ha Hb Hx Hy.
    apply (Hone a b x y Ha Hb); by apply in_flight_busy.
  - intros i j ti tj Hi Hj Hfl Hpc.
    assert (is_loading (globals sys) = true) as Hl
      by (apply Hflag; by exists i, ti).
    split; [exact Hl|]. split; [|done].
    by apply check_while_loading.
Qed.

Lemma gate_single_flight_outside_window_witness :
  exists sys,
    history None [PostRefresh None sample_world; LoopTurn garbled_world;
                  Statement 0; Statement 0; Statement 1; Statement 0]
      (boot [timeout_world]) = Some sys
    /\ window_free None [PostRefresh None sample_world; LoopTurn garbled_world;
                         Statement 0; Statement 0; Statement 1; Statement 0]
         (boot [timeout_world]) = true
    /\ List.length (List.filter in_flight (threads sys)) <= 1
    /\ is_loading (globals sys) = true
    /\ step 2 sys
       = Some {| globals := globals sys;
                 threads := <[2 := at_pc Skipped (start garbled_world)]>
                              (threads sys) |}.
Proof.
  eexists. split; [reflexivity|]. split; [reflexivity|].
  destruct (gate_single_flight_outside_window None [timeout_world]
              [PostRefresh None sample_world; LoopTurn garbled_world;
               Statement 0; Statement 0; Statement 1; Statement 0]
              _ eq_refl eq_refl) as [Hone Hgate].
  split; [exact Hone|].
  destruct (Hgate 0 2 (at_pc AtTry (start timeout_world))
              (start garbled_world) eq_refl eq_refl eq_refl eq_refl)
    as (Hl & Hstep & _).
  split; [exact Hl | exact Hstep].
Defined.
